(** * Elementium evaluation core: registry, formulas, variables, characters.

    A shallow embedding of [core/registry.py], [core/element.py],
    [core/formula.py], [core/variable.py] and [core/character.py], and the
    properties of the evaluation core proved (or refuted) on it.

    Conventions.
    - A Python [dict] is a [gmap]; where the code iterates a dict
      ([registry[Types.VARIABLE].values()]) the model iterates
      [map_to_list], so the order of the VARIABLE group is the map's
      enumeration order rather than Python's insertion order.  No statement
      below depends on how the constructor orders the group: a statement
      about the order of evaluation is made on the VARIABLE group of the
      character at hand, in the order in which the character holds it.
    - A Python exception is a value of [exn]; a call that can raise returns
      [outcome].  The language-neutral error names of the specification map
      to the exceptions the code raises: DuplicateIdError is [ValueError],
      InvalidRegistrationError is [TypeError], NotFoundError is [KeyError].
    - A Python object that is neither an [int] nor a [bool] (a float, a
      string, ...) is carried as its [repr]; its truthiness and the
      arithmetic operators on it are not part of this repository and are
      parameters of the evaluation ([Objects]). *)

From stdpp Require Import base option list gmap strings numbers fin_maps.
From Stdlib Require Import ZArith Lia.

Local Open Scope Z_scope.

(** ** Keys, operators and element references *)

(** The key of a failed dict lookup: a type discriminator or an id. *)
Inductive pykey :=
| KInt (t : Z)
| KStr (i : string).

(** [from operator import add, floordiv, mul, sub, truediv] *)
Inductive operator := add | sub | mul | truediv | floordiv.

(** [ElementRef = Union[Type['Element'], Tuple[int, str]]], over the type
    [C] of classes. *)
Inductive ElementRef_ (C : Type) :=
| RefClass (cls : C)
| RefPair (type : Z) (id : string).
Arguments RefClass {C} cls.
Arguments RefPair {C} type id.

(** ** Values *)

Inductive value :=
| VInt (n : Z)
| VBool (b : bool)
| VObject (repr : string).

(** ** Formulas ([core/formula.py])

    A [Formula] wraps a callable [Character -> T].  The model has one
    constructor per way the class builds such a callable; [FProbe k f] is a
    user callable that records its invocation under tag [k] and then behaves
    as [f] (the instrumented callable a test passes to [Formula.if_] to
    count invocations). *)
Inductive Formula :=
| Fconst (v : value)
| Fvar (name : string)
| Fcount (element : ElementRef_ Class)
| Fhas (element : ElementRef_ Class)
| Fif_ (expr if_true if_false : Formula)
| F_operator (self : Formula) (op : operator) (func : Formula)
| F_roperator (self : Formula) (op : operator) (func : Formula)
| FProbe (k : nat) (f : Formula)

(** ** Element descriptors ([core/element.py], [core/variable.py])

    A descriptor is a class.  [Element] is the abstract base class, which
    has neither [type] nor [id]; [Subclass d] is a concrete kind that passed
    the definition-time check, so that [type], [id] and [name] are present.
    [formula] is [Some f] exactly for the subclasses of [Variable]
    ([Variable.__init_subclass__] rejects a subclass without one).  The
    class [Variable] itself and the classes declared with [_check=False],
    which may lack an id, are not descriptors of the model. *)
with ElementClass :=
| MkElementClass (qualname : string) (type : Z) (id : string) (name : string)
                 (formula : option Formula)

with Class :=
| Element
| Subclass (d : ElementClass).

Definition ElementRef := ElementRef_ Class.

Definition qualname (d : ElementClass) : string :=
  let '(MkElementClass q _ _ _ _) := d in q.
Definition type (d : ElementClass) : Z :=
  let '(MkElementClass _ t _ _ _) := d in t.
Definition id (d : ElementClass) : string :=
  let '(MkElementClass _ _ i _ _) := d in i.
Definition name (d : ElementClass) : string :=
  let '(MkElementClass _ _ _ n _) := d in n.
Definition formula (d : ElementClass) : option Formula :=
  let '(MkElementClass _ _ _ _ f) := d in f.

(** [class Types] *)
Definition VARIABLE : Z := 0.

(** [issubclass(cls, Variable)] *)
Definition is_Variable (d : ElementClass) : bool :=
  match formula d with Some _ => true | None => false end.

(** ** Exceptions *)

Inductive exn :=
| TypeError (msg : string)
| ValueError (msg : string)
| KeyError (k : pykey)
| AttributeError (attr : string)
| AssertionError
| ZeroDivisionError
| OverflowError
(** [CircularDependencyError(variable)]: the instance is identified by
    its position in the VARIABLE group and its class. *)
| CircularDependencyError (index : nat) (variable : ElementClass).

Inductive outcome (A : Type) :=
| Ok (a : A)
| Raise (e : exn).
Arguments Ok {A} a.
Arguments Raise {A} e.

(** ** Registry ([core/registry.py]) *)

(** [self.registry: Dict[int, Dict[str, Type['Element']]]] *)
Abbreviation Registry := (gmap Z (gmap string Class)).

(** [Registry.register].  On failure the registry is unchanged: the
    [setdefault] creates an inner dict only for a new type, and then the id
    cannot be present. *)
Definition Registry_register (self : Registry) (cls : Class)
  : outcome Registry :=
  match cls with
  | Element => Raise (TypeError "Cannot register base class Element")
  | Subclass d =>
      let registry := default ∅ (self !! type d) in
      match registry !! id d with
      | Some _ => Raise (ValueError (qualname d))
      | None => Ok (<[type d := <[id d := cls]> registry]> self)
      end
  end.

(** [Registry.get]: [self.registry[type][id]] *)
Definition Registry_get (self : Registry) (type : Z) (id : string)
  : outcome Class :=
  match self !! type with
  | None => Raise (KeyError (KInt type))
  | Some registry =>
      match registry !! id with
      | None => Raise (KeyError (KStr id))
      | Some cls => Ok cls
      end
  end.

(** [Registry.__getitem__]: [self.registry.get(type, {})] *)
Definition Registry_getitem (self : Registry) (type : Z)
  : gmap string Class :=
  default ∅ (self !! type).

(** ** Characters ([core/character.py]) *)

(** An element instance: [cls(self)].  [Variable.__init__] sets
    [self._lock = False]; instances of other kinds never read the flag.  The
    back-reference [self.character] is the character holding the instance. *)
Record Instance := { inst_cls : ElementClass; _lock : bool }.

Definition new (d : ElementClass) : Instance :=
  {| inst_cls := d; _lock := false |}.

(** [self.elements: Dict[int, List[Element]]] and [self._registry] *)
Record Character := {
  elements : gmap Z (list Instance);
  _registry : Registry
}.

(** Resolution of an element reference: a tuple is unpacked into
    [registry.get], a class stands for itself. *)
Definition resolve (registry : Registry) (element : ElementRef)
  : outcome Class :=
  match element with
  | RefClass cls => Ok cls
  | RefPair type id => Registry_get registry type id
  end.

(** First loop of [Character.__init__]:
    [self.elements.setdefault(cls.type, []).append(cls(self))] *)
Fixpoint init_elements (registry : Registry) (refs : list ElementRef)
    (elems : gmap Z (list Instance)) : outcome (gmap Z (list Instance)) :=
  match refs with
  | [] => Ok elems
  | element :: refs' =>
      match resolve registry element with
      | Raise e => Raise e
      | Ok Element => Raise (AttributeError "type")
      | Ok (Subclass d) =>
          init_elements registry refs'
            (<[type d := default [] (elems !! type d) ++ [new d]]> elems)
      end
  end.

(** Second loop of [Character.__init__], over
    [registry[Types.VARIABLE].values()] *)
Fixpoint init_variables (classes : list Class) (group : list Instance)
  : outcome (list Instance) :=
  match classes with
  | [] => Ok group
  | Element :: _ => Raise AssertionError
  | Subclass d :: classes' =>
      if is_Variable d && (type d =? VARIABLE)
      then init_variables classes' (group ++ [new d])
      else Raise AssertionError
  end.

(** [Character.__init__] *)
Definition Character_init (refs : list ElementRef) (registry : Registry)
  : outcome Character :=
  match init_elements registry refs ∅ with
  | Raise e => Raise e
  | Ok elems =>
      match init_variables
              (map_to_list (Registry_getitem registry VARIABLE)).*2 [] with
      | Raise e => Raise e
      | Ok group =>
          Ok {| elements := <[VARIABLE := group]> elems;
                _registry := registry |}
      end
  end.

(** [Character.get_elements_by_type]: [self.elements.get(type, [])] *)
Definition Character_get_elements_by_type (self : Character) (type : Z)
  : list Instance :=
  default [] (elements self !! type).

(** Python's [sum] over an iterable of integers. *)
Definition sum (l : list Z) : Z := foldl Z.add 0 l.

(** [Character.count_elements] *)
Definition Character_count_elements (self : Character) (element : ElementRef)
  : outcome Z :=
  match resolve (_registry self) element with
  | Raise e => Raise e
  | Ok Element => Raise (AttributeError "type")
  | Ok (Subclass d) =>
      Ok (sum (map (λ x, Z.b2z (String.eqb (id d) (id (inst_cls x))))
                 (Character_get_elements_by_type self (type d))))
  end.

(** [Character.variables]: the dict [var.id -> var] built from the VARIABLE
    group; a later instance replaces an earlier one with the same id.  The
    dict holds references to the instances of the group, so an entry is the
    position of the instance together with the instance found there. *)
Definition Character_variables (self : Character)
  : outcome (gmap string (nat * Instance)) :=
  match elements self !! VARIABLE with
  | None => Raise (KeyError (KInt VARIABLE))
  | Some group =>
      Ok (foldl (λ variables iv, <[id (inst_cls iv.2) := iv]> variables) ∅
            (imap (λ i var, (i, var)) group))
  end.

(** [self._lock = b] on the instance at position [index] of the VARIABLE
    group. *)
Definition set_lock (index : nat) (b : bool) (self : Character) : Character :=
  {| elements :=
       alter (alter (λ var, {| inst_cls := inst_cls var; _lock := b |}) index)
             VARIABLE (elements self);
     _registry := _registry self |}.

(** ** Evaluation ([Formula.__call__], [Variable.__call__],
       [Character.get_variable]) *)

(** Truthiness of the other objects and the arithmetic operators applied to
    operands that are not both integers (and true division, whose result is
    a float). *)
Class Objects := {
  object_bool : string → bool;
  object_operator : operator → value → value → outcome value
}.

(** Python restricted to [int] and [bool]: no other object is truthy and
    an operator reaching another object, or a float result, raises. *)
Definition ints_only : Objects := {|
  object_bool := λ _, false;
  object_operator := λ _ _ _, Raise (TypeError "unsupported operand type(s)")
|}.

Section Evaluation.

Context `{!Objects}.

(** [bool(v)] *)
Definition truthy (v : value) : bool :=
  match v with
  | VInt n => negb (n =? 0)
  | VBool b => b
  | VObject repr => object_bool repr
  end.

(** [bool] is a subclass of [int]. *)
Definition as_int (v : value) : option Z :=
  match v with
  | VInt n => Some n
  | VBool b => Some (Z.b2z b)
  | VObject _ => None
  end.

(** [operator(a, b)] for the five operators of [core/formula.py].  Python's
    [//] on integers rounds towards minus infinity, as [Z.div] does. *)
Definition apply_operator (op : operator) (a b : value) : outcome value :=
  match as_int a, as_int b with
  | Some x, Some y =>
      match op with
      | add => Ok (VInt (x + y))
      | sub => Ok (VInt (x - y))
      | mul => Ok (VInt (x * y))
      | floordiv =>
          if y =? 0 then Raise ZeroDivisionError else Ok (VInt (Z.div x y))
      | truediv =>
          if y =? 0 then Raise ZeroDivisionError
          else object_operator truediv a b
      end
  | _, _ => object_operator op a b
  end.

(** The state an evaluation runs in: the character, whose Variable instances
    carry the in-progress flags, and the log of the probes invoked so far. *)
Record State := { character : Character; hits : list nat }.

(** A call that can raise and that reads and writes the state.  [None] is the
    model running out of fuel, never a result of the program. *)
Definition M (A : Type) : Type := State → option (outcome A * State).

Definition raise {A} (e : exn) : M A := λ s, Some (Raise e, s).

#[global] Instance M_ret : MRet M := λ A a s, Some (Ok a, s).
#[global] Instance M_bind : MBind M := λ A B k m s,
  match m s with
  | None => None
  | Some (Raise e, s') => Some (Raise e, s')
  | Some (Ok a, s') => k a s'
  end.

(** A call that only reads the character. *)
Definition lift {A} (f : Character → outcome A) : M A :=
  λ s, Some (f (character s), s).

(** A write to the character. *)
Definition update (f : Character → Character) : M unit :=
  λ s, Some (Ok tt, {| character := f (character s); hits := hits s |}).

(** The side effect of a probe. *)
Definition tick (k : nat) : M unit :=
  λ s, Some (Ok tt, {| character := character s; hits := hits s ++ [k] |}).

Section Formula_call.

(** [character.get_variable], the one entry of the query surface through
    which a formula re-enters variable evaluation. *)
Variable get_variable : string → M value.

(** [Formula.__call__]: [self.function(character)] *)
Fixpoint Formula_call (f : Formula) : M value :=
  match f with
  | Fconst v => mret v
  | Fvar name => get_variable name
  | Fcount element =>
      n ← lift (λ c, Character_count_elements c element) ; mret (VInt n)
  | Fhas element =>
      n ← lift (λ c, Character_count_elements c element) ;
      mret (VBool (0 <? n))
  | Fif_ expr if_true if_false =>
      b ← Formula_call expr ;
      if truthy b then Formula_call if_true else Formula_call if_false
  | F_operator self op func =>
      a ← Formula_call self ;
      b ← Formula_call func ;
      lift (λ _, apply_operator op a b)
  | F_roperator self op func =>
      a ← Formula_call func ;
      b ← Formula_call self ;
      lift (λ _, apply_operator op a b)
  | FProbe k f => _ ← tick k ; Formula_call f
  end.

End Formula_call.

(** [Character.get_variable]: [self.variables[id]()], over the call
    [Variable.__call__] of an instance. *)
Definition Character_get_variable_via
    (call : nat → Instance → M value) (id : string) : M value :=
  λ s, match Character_variables (character s) with
       | Raise e => Some (Raise e, s)
       | Ok variables =>
           match variables !! id with
           | None => Some (Raise (KeyError (KStr id)), s)
           | Some (index, var) => call index var s
           end
       end.

(** [Variable.__call__] on the instance [self] found at position [index] of
    the VARIABLE group.  An instance of a class that is not a Variable is
    not callable.  Each call uses one unit of fuel. *)
Fixpoint Variable_call (fuel : nat) (index : nat) (self : Instance)
  : M value :=
  match fuel with
  | O => λ _, None
  | S fuel' =>
      match formula (inst_cls self) with
      | None => raise (TypeError "object is not callable")
      | Some f =>
          if _lock self
          then raise (CircularDependencyError index (inst_cls self))
          else
            _ ← update (set_lock index true) ;
            value ← Formula_call
                      (Character_get_variable_via (Variable_call fuel')) f ;
            _ ← update (set_lock index false) ;
            mret value
      end
  end.

Definition Character_get_variable (fuel : nat) (id : string) : M value :=
  Character_get_variable_via (Variable_call fuel) id.

(** A formula evaluated against a character, as a caller outside any
    variable evaluation does. *)
Definition Formula_eval (fuel : nat) (f : Formula) : M value :=
  Formula_call (Character_get_variable fuel) f.

(** *** The constructors and operators of [Formula] *)

Definition Formula_const (v : value) : Formula := Fconst v.
Definition Formula_var (name : string) : Formula := Fvar name.
Definition Formula_count (element : ElementRef) : Formula := Fcount element.
Definition Formula_has (element : ElementRef) : Formula := Fhas element.
Definition Formula_if_ (expr if_true if_false : Formula) : Formula :=
  Fif_ expr if_true if_false.

(** The right operand of an operator: a callable or a bare constant. *)
Inductive operand :=
| Callable (f : Formula)
| Constant (v : value).

(** [func = value if callable(value) else lambda character: value] *)
Definition as_func (value : operand) : Formula :=
  match value with
  | Callable f => f
  | Constant v => Fconst v
  end.

Definition Formula_operator (self : Formula) (op : operator) (value : operand)
  : Formula :=
  F_operator self op (as_func value).

Definition Formula_roperator (self : Formula) (op : operator) (value : operand)
  : Formula :=
  F_roperator self op (as_func value).

(** [__add__], [__sub__], [__mul__], [__truediv__], [__floordiv__] *)
Definition Formula_add self func := Formula_operator self add func.
Definition Formula_sub self func := Formula_operator self sub func.
Definition Formula_mul self func := Formula_operator self mul func.
Definition Formula_truediv self func := Formula_operator self truediv func.
Definition Formula_floordiv self func := Formula_operator self floordiv func.

(** [__radd__], [__rsub__], [__rmul__], [__rtruediv__], [__rfloordiv__]:
    [self] is the right operand of the expression, [func] the left one. *)
Definition Formula_radd self func := Formula_roperator self add func.
Definition Formula_rsub self func := Formula_roperator self sub func.
Definition Formula_rmul self func := Formula_roperator self mul func.
Definition Formula_rtruediv self func := Formula_roperator self truediv func.
Definition Formula_rfloordiv self func :=
  Formula_roperator self floordiv func.

(** The method of [Formula] Python calls for each operator sign: [+] is
    [__add__], [-] is [__sub__], [*] is [__mul__], [/] is [__truediv__] and
    [//] is [__floordiv__]. *)
Definition method (op : operator) : Formula → operand → Formula :=
  match op with
  | add => Formula_add
  | sub => Formula_sub
  | mul => Formula_mul
  | truediv => Formula_truediv
  | floordiv => Formula_floordiv
  end.

(** The reflected method for each operator sign: [__radd__], [__rsub__],
    [__rmul__], [__rtruediv__] and [__rfloordiv__]. *)
Definition reflected (op : operator) : Formula → operand → Formula :=
  match op with
  | add => Formula_radd
  | sub => Formula_rsub
  | mul => Formula_rmul
  | truediv => Formula_rtruediv
  | floordiv => Formula_rfloordiv
  end.

(** The Python expression [x op y] with at least one Formula operand: the
    method of the left operand when it is a Formula ([x.__op__(y)]), the
    reflected method of the right operand when the left one is a bare
    constant ([y.__rop__(x)]). *)
Definition binary (op : operator) (x y : operand) : option Formula :=
  match x, y with
  | Callable f, _ => Some (method op f y)
  | Constant _, Callable g => Some (reflected op g x)
  | Constant _, Constant _ => None
  end.

(** The value of an operand: a callable is called, a constant stands for
    itself. *)
Definition operand_call (get_variable : string → M value) (x : operand)
  : M value :=
  match x with
  | Callable f => Formula_call get_variable f
  | Constant v => mret v
  end.

(** The operator [op] applied to the operands [x] and [y] evaluated from
    left to right: [x] first, then [y] in the state [x] left, then
    [op(x, y)]; an exception of [x] ends the evaluation before [y] is
    evaluated. *)
Definition applied (get_variable : string → M value) (op : operator)
    (x y : operand) : M value :=
  λ s, match operand_call get_variable x s with
       | None => None
       | Some (Raise e, s1) => Some (Raise e, s1)
       | Some (Ok a, s1) =>
           match operand_call get_variable y s1 with
           | None => None
           | Some (Raise e, s2) => Some (Raise e, s2)
           | Some (Ok b, s2) => Some (apply_operator op a b, s2)
           end
       end.

(** *** The evaluation protocol in the words of the specification

    The specification describes the guard as a check against the variables
    in progress on the active call chain.  [chain_Variable_call] is
    [Variable.__call__] written that way: it carries the positions of the
    instances being evaluated, raises when the instance called is among
    them, and neither reads nor writes a flag. *)
Fixpoint chain_Variable_call (fuel : nat) (chain : list nat) (index : nat)
    (self : Instance) : M value :=
  match fuel with
  | O => λ _, None
  | S fuel' =>
      match formula (inst_cls self) with
      | None => raise (TypeError "object is not callable")
      | Some f =>
          if bool_decide (index ∈ chain)
          then raise (CircularDependencyError index (inst_cls self))
          else Formula_call
                 (Character_get_variable_via
                    (chain_Variable_call fuel' (index :: chain))) f
      end
  end.

Definition chain_get_variable (fuel : nat) (chain : list nat) (id : string)
  : M value :=
  Character_get_variable_via (chain_Variable_call fuel chain) id.

End Evaluation.

(** ** Choices ([Element.get_choices]) *)

(** [ElementMultiRef = Union[ElementRef, int,
    Tuple[int, Callable[[Type['Element']], bool]]]] *)
Inductive ElementMultiRef :=
| MultiRef (element : ElementRef)
| MultiType (type : Z)
| MultiSpec (type : Z) (spec : Class → bool).

(** [OptionTuple = Tuple[List[ElementMultiRef], int]] *)
Definition OptionTuple : Type := list ElementMultiRef * Z.

(** [l[i]] on a Python list: a negative index counts from the end, an index
    out of range has no element. *)
Definition py_index {A} (l : list A) (i : Z) : option A :=
  if 0 <=? i then l !! Z.to_nat i
  else if - Z.of_nat (length l) <=? i
       then l !! Z.to_nat (Z.of_nat (length l) + i)
       else None.

(** The result of a call that can also raise [IndexError]. *)
Inductive indexed (A : Type) :=
| Found (a : A)
| RaiseIndexError
| Raised (e : exn).
Arguments Found {A} a.
Arguments RaiseIndexError {A}.
Arguments Raised {A} e.

(** [dict.values()] *)
Definition values (registry : gmap string Class) : list Class :=
  (map_to_list registry).*2.

(** The loop of [Element.get_choices].  The set [res] is the list of the
    classes added to it: a class is in the set when it is in the list, and
    neither the order nor the repetitions of the list mean anything. *)
Fixpoint get_choices_loop (registry : Registry)
    (choices : list ElementMultiRef) (res : list Class)
  : outcome (list Class) :=
  match choices with
  | [] => Ok res
  | MultiRef (RefClass choice) :: choices' =>
      get_choices_loop registry choices' (res ++ [choice])
  | MultiRef (RefPair typ spec) :: choices' =>
      match Registry_get registry typ spec with
      | Raise e => Raise e
      | Ok cls => get_choices_loop registry choices' (res ++ [cls])
      end
  | MultiSpec typ spec :: choices' =>
      get_choices_loop registry choices'
        (res ++ filter (λ item, spec item = true)
                  (values (Registry_getitem registry typ)))
  | MultiType choice :: choices' =>
      get_choices_loop registry choices'
        (res ++ values (Registry_getitem registry choice))
  end.

(** [Element.get_choices(self, option)], with the class attributes
    [self._registry] and [self.options] as arguments. *)
Definition Element_get_choices (registry : Registry)
    (options : list OptionTuple) (option : Z) : indexed (list Class) :=
  match py_index options option with
  | None => RaiseIndexError
  | Some (choices, _) =>
      match get_choices_loop registry choices [] with
      | Raise e => Raised e
      | Ok res => Found res
      end
  end.

(** The classes a candidate of an option stands for. *)
Definition selects (registry : Registry) (choice : ElementMultiRef)
    (cls : Class) : Prop :=
  match choice with
  | MultiRef (RefClass c) => cls = c
  | MultiRef (RefPair typ i) => Registry_getitem registry typ !! i = Some cls
  | MultiSpec typ spec =>
      (∃ i, Registry_getitem registry typ !! i = Some cls) ∧ spec cls = true
  | MultiType typ => ∃ i, Registry_getitem registry typ !! i = Some cls
  end.

(** A candidate that names a (type, id) pair no class is registered
    under. *)
Definition dangling (registry : Registry) (choice : ElementMultiRef) : Prop :=
  match choice with
  | MultiRef (RefPair typ i) => Registry_getitem registry typ !! i = None
  | _ => False
  end.

(** The dict [Character.variables] builds from a VARIABLE group. *)
Definition variables_of (group : list Instance) : gmap string (nat * Instance) :=
  foldl (λ variables iv, <[id (inst_cls iv.2) := iv]> variables) ∅
    (imap (λ i var, (i, var)) group).

(** ** Spell flags ([core/const.py]) *)

(** [class SpellFlags] *)
Definition VERBAL : Z := Z.shiftl 1 0.
Definition SOMANTIC : Z := Z.shiftl 1 1.
Definition MATERIAL : Z := Z.shiftl 1 2.
Definition CONCENTRATION : Z := Z.shiftl 1 3.
Definition RITUAL : Z := Z.shiftl 1 4.
Definition SPECIAL : Z := Z.shiftl 1 5.

Definition SpellFlags : list Z :=
  [VERBAL; SOMANTIC; MATERIAL; CONCENTRATION; RITUAL; SPECIAL].

(** The flags combined with [|]. *)
Definition combine (flags : list Z) : Z := foldr Z.lor 0 flags.

(** [mask & flag != 0] *)
Definition has_flag (mask flag : Z) : bool := negb (Z.land mask flag =? 0).

(** ** All variables at once ([Character.calculated_variables]) *)

(** The keys of a dict filled in the order of [ids]: each key stays where
    it was first inserted. *)
Definition keys_in_order (ids : list string) : list string :=
  reverse (remove_dups (reverse ids)).

(** [self.variables.items()]: the keys in insertion order, each with the
    instance the dict holds for it. *)
Definition Character_variables_items (self : Character)
  : outcome (list (string * (nat * Instance))) :=
  match Character_variables self with
  | Raise e => Raise e
  | Ok variables =>
      Ok (omap (λ k, (λ iv, (k, iv)) <$> variables !! k)
            (keys_in_order
               (map (λ var, id (inst_cls var))
                  (Character_get_elements_by_type self VARIABLE))))
  end.

(** The state [s] with [h] recorded before its log of probes. *)
Definition with_hits (h : list nat) (s : State) : State :=
  {| character := character s; hits := h ++ hits s |}.

(** A result whose final state is moved by [with_hits]. *)
Definition shift {A} (h : list nat) (x : option (outcome A * State))
  : option (outcome A * State) :=
  (λ rs, (rs.1, with_hits h rs.2)) <$> x.

Section Batch.

Context `{!Objects}.

(** A call [v()] of an instance held by reference: the instance is the one
    at its position in the VARIABLE group, with the flag it has now. *)
Definition Variable_call_ref (fuel : nat) (ref : nat * Instance) : M value :=
  λ s, Variable_call fuel ref.1
         (default ref.2
            (Character_get_elements_by_type (character s) VARIABLE !! ref.1))
         s.

(** The comprehension [{k: v() for k, v in items}]: the dict built so far
    is [result], and the first exception ends the comprehension. *)
Fixpoint calculate (fuel : nat) (items : list (string * (nat * Instance)))
    (result : list (string * value)) : M (list (string * value)) :=
  match items with
  | [] => mret result
  | (k, v) :: items' =>
      value ← Variable_call_ref fuel v;
      calculate fuel items' (result ++ [(k, value)])
  end.

(** [Character.calculated_variables]; the dict is the list of its items in
    order. *)
Definition Character_calculated_variables (fuel : nat)
  : M (list (string * value)) :=
  λ s, match Character_variables_items (character s) with
       | Raise e => Some (Raise e, s)
       | Ok items => calculate fuel items [] s
       end.

(** The probes one evaluation of the variable [k] records on the character
    [c], started with an empty log. *)
Definition probes_of (fuel : nat) (c : Character) (k : string) : list nat :=
  match Character_get_variable fuel k {| character := c; hits := [] |} with
  | Some (_, s') => hits s'
  | None => []
  end.

(** The variable [k] returns a value when evaluated in the state [s]. *)
Definition returns (fuel : nat) (s : State) (k : string) : Prop :=
  ∃ v s', Character_get_variable fuel k s = Some (Ok v, s').

End Batch.

(** ** Relations between the states of an evaluation *)

(** [y] is the instance [x] with its flag set or left as it was. *)
Definition lock_le (x y : Instance) : Prop :=
  inst_cls y = inst_cls x ∧ (_lock x = true → _lock y = true).

(** [c'] is the character [c] with some more in-progress flags set: the
    same registry, the same groups, the same instances in the same order. *)
Definition more_locked (c c' : Character) : Prop :=
  _registry c' = _registry c
  ∧ (∀ t, t ≠ VARIABLE → elements c' !! t = elements c !! t)
  ∧ option_Forall2 (Forall2 lock_le)
      (elements c !! VARIABLE) (elements c' !! VARIABLE).

(** The number of Variable instances whose flag is clear. *)
Definition unlocked (c : Character) : nat :=
  length (filter (λ x, _lock x = false)
            (Character_get_elements_by_type c VARIABLE)).

(** No Variable instance is in progress. *)
Definition idle (c : Character) : Prop :=
  Forall (λ x, _lock x = false) (Character_get_elements_by_type c VARIABLE).

(** What one evaluation does to the state: flags are only ever set, the log
    of probes only grows, and a returned value leaves the character as it
    was found. *)
Definition evaluated (s : State) (r : outcome value) (s' : State) : Prop :=
  more_locked (character s) (character s')
  ∧ (∀ v, r = Ok v → character s' = character s)
  ∧ ∃ log, hits s' = hits s ++ log.

(** [c] and [c'] hold the same instances and differ in flags at most. *)
Definition same_instances (c c' : Character) : Prop :=
  _registry c' = _registry c
  ∧ (∀ t, t ≠ VARIABLE → elements c' !! t = elements c !! t)
  ∧ option_Forall2 (Forall2 (λ x y, inst_cls y = inst_cls x))
      (elements c !! VARIABLE) (elements c' !! VARIABLE).

(** The flags set in [c] are those of the instances at the positions of
    [chain]. *)
Definition chain_locked (chain : list nat) (c : Character) : Prop :=
  ∀ index var,
    Character_get_elements_by_type c VARIABLE !! index = Some var →
    (_lock var = true ↔ index ∈ chain).

(** The state [sc] of the code and the state [ss] of the evaluation by call
    chain correspond. *)
Definition sim (chain : list nat) (sc ss : State) : Prop :=
  hits sc = hits ss
  ∧ same_instances (character ss) (character sc)
  ∧ chain_locked chain (character sc).

(** The results of the two evaluations agree: the same value in
    corresponding states, or the same exception after the same probes. *)
Definition agree (chain : list nat)
    (x y : option (outcome value * State)) : Prop :=
  match x, y with
  | None, None => True
  | Some (Ok v, sc), Some (Ok w, ss) => v = w ∧ sim chain sc ss
  | Some (Raise e, sc), Some (Raise e', ss) => e = e' ∧ hits sc = hits ss
  | _, _ => False
  end.

(** The property of two [get_variable] under which the evaluations of a
    formula agree. *)
Definition get_variable_agree (chain : list nat)
    (gvc gvs : string → M value) : Prop :=
  ∀ name sc ss, sim chain sc ss → agree chain (gvc name sc) (gvs name ss).

(** The registries [Registry.register] builds: every class is stored under
    its own type and id, and the abstract base class is never stored. *)
Definition Registry_wf (registry : Registry) : Prop :=
  ∀ t i cls, Registry_getitem registry t !! i = Some cls →
             ∃ d, cls = Subclass d ∧ type d = t ∧ id d = i.

(** A reference that is a descriptor literal. *)
Definition is_literal (element : ElementRef) : Prop :=
  match element with RefClass _ => True | RefPair _ _ => False end.

(** The property of [get_variable] an evaluation of a formula relies on. *)
Definition get_variable_evaluated (get_variable : string → M value) : Prop :=
  ∀ name s r s', get_variable name s = Some (r, s') → evaluated s r s'.

(** ** Sample content

    Descriptors, registries and characters the statements below are
    instantiated at. *)

Definition CLASS : Z := 80.
Definition RACE : Z := 60.

Definition Wizard : ElementClass :=
  MkElementClass "Wizard" CLASS "wizard" "Wizard" None.
Definition Fighter : ElementClass :=
  MkElementClass "Fighter" CLASS "fighter" "Fighter" None.
(** A second class declared with the id of [Wizard]. *)
Definition Wizard2 : ElementClass :=
  MkElementClass "Wizard2" CLASS "wizard" "Another wizard" None.
(** A race that shares its id with the class [Wizard]. *)
Definition WizardRace : ElementClass :=
  MkElementClass "WizardRace" RACE "wizard" "Wizard folk" None.

(** Registration of a list of classes in order, stopping at the first
    failure, as a module that declares them one after the other does. *)
Fixpoint register_all (self : Registry) (classes : list Class)
  : outcome Registry :=
  match classes with
  | [] => Ok self
  | cls :: classes' =>
      match Registry_register self cls with
      | Raise e => Raise e
      | Ok self' => register_all self' classes'
      end
  end.

(** The registry after [Wizard] and [Fighter] were declared, and the
    character built from three references to the wizard and one to the
    fighter. *)
Definition class_registry : Registry :=
  {[ CLASS := {[ "wizard" := Subclass Wizard; "fighter" := Subclass Fighter ]} ]}.

Definition party_refs : list ElementRef :=
  [RefPair CLASS "wizard"; RefClass (Subclass Wizard); RefPair CLASS "fighter";
   RefPair CLASS "wizard"].

Definition party : Character :=
  {| elements :=
       {[ CLASS := [new Wizard; new Wizard; new Fighter; new Wizard];
          VARIABLE := [] ]};
     _registry := class_registry |}.

(** A descriptor that is never registered. *)
Definition Rogue : ElementClass :=
  MkElementClass "Rogue" CLASS "rogue" "Rogue" None.

(** Variables.  [Level] counts the wizards; [ShareA] and [ShareB] both read
    [Shared], which divides by the number of wizards; [Ping] and [Pong] read
    each other; [Broken] reads a variable that does not exist. *)
Definition Level : ElementClass :=
  MkElementClass "Level" VARIABLE "level" "Level"
    (Some (Fcount (RefPair CLASS "wizard"))).
Definition ShareA : ElementClass :=
  MkElementClass "ShareA" VARIABLE "a" "A" (Some (Fvar "c")).
Definition ShareB : ElementClass :=
  MkElementClass "ShareB" VARIABLE "b" "B" (Some (Fvar "c")).
Definition Shared : ElementClass :=
  MkElementClass "Shared" VARIABLE "c" "C"
    (Some (F_operator (Fconst (VInt 10)) floordiv
             (Fcount (RefPair CLASS "wizard")))).
Definition Ping : ElementClass :=
  MkElementClass "Ping" VARIABLE "ping" "Ping" (Some (Fvar "pong")).
Definition Pong : ElementClass :=
  MkElementClass "Pong" VARIABLE "pong" "Pong" (Some (Fvar "ping")).
Definition Broken : ElementClass :=
  MkElementClass "Broken" VARIABLE "broken" "Broken" (Some (Fvar "nowhere")).

Definition game_registry : Registry :=
  {[ CLASS := {[ "wizard" := Subclass Wizard; "fighter" := Subclass Fighter ]};
     VARIABLE := {[ "a" := Subclass ShareA; "b" := Subclass ShareB;
                    "c" := Subclass Shared; "level" := Subclass Level;
                    "ping" := Subclass Ping; "pong" := Subclass Pong;
                    "broken" := Subclass Broken ]} ]}.

(** The VARIABLE group of a character over [game_registry], with the flags
    given in the order of the group. *)
Definition variables_with (la lb lc lbroken : bool) : list Instance :=
  [ {| inst_cls := Shared; _lock := lc |};
    {| inst_cls := ShareA; _lock := la |};
    {| inst_cls := Broken; _lock := lbroken |};
    {| inst_cls := ShareB; _lock := lb |};
    new Level; new Pong; new Ping ].

(** [hero] holds three wizards and a fighter, [commoner] holds no element;
    the flags of [a], [b], [c] and [broken] are parameters. *)
Definition hero_with (la lb lc lbroken : bool) : Character :=
  {| elements :=
       {[ CLASS := [new Wizard; new Wizard; new Fighter; new Wizard];
          VARIABLE := variables_with la lb lc lbroken ]};
     _registry := game_registry |}.

Definition commoner_with (la lb lc lbroken : bool) : Character :=
  {| elements := {[ VARIABLE := variables_with la lb lc lbroken ]};
     _registry := game_registry |}.

Definition hero : Character := hero_with false false false false.
Definition commoner : Character := commoner_with false false false false.

(** A state with an empty log of probes. *)
Definition start (c : Character) : State := {| character := c; hits := [] |}.

(** A character with one wizard and the variables [Level], [Pong] and
    [Ping], in this order. *)
Definition trio : Character :=
  {| elements := {[ CLASS := [new Wizard];
                    VARIABLE := [new Level; new Pong; new Ping] ]};
     _registry :=
       {[ CLASS := {[ "wizard" := Subclass Wizard ]};
          VARIABLE := {[ "level" := Subclass Level; "pong" := Subclass Pong;
                         "ping" := Subclass Ping ]} ]} |}.

(** The options of a class: first a choice of one among the wizard and every
    race, then a choice of two among the classes accepted by a predicate
    that rejects the fighter. *)
Definition sample_options : list OptionTuple :=
  [ ([MultiRef (RefPair CLASS "wizard"); MultiType RACE], 1);
    ([MultiType CLASS;
      MultiSpec CLASS (λ cls, match cls with
                              | Subclass d => negb (String.eqb (id d) "fighter")
                              | Element => false
                              end)], 2) ].

(** The number of instances of a group whose id is [i]. *)
Definition occurrences (i : string) (group : list Instance) : nat :=
  length (filter (λ x, id (inst_cls x) = i) group).

(** ** Registry *)

Lemma Registry_get_Ok (self : Registry) (t : Z) (i : string) (cls : Class) :
  Registry_get self t i = Ok cls ↔ Registry_getitem self t !! i = Some cls.
Proof.
  unfold Registry_get, Registry_getitem.
  destruct (self !! t) as [registry|]; simpl.
  - destruct (registry !! i); split; intros; simplify_eq; done.
  - rewrite lookup_empty. split; intros; simplify_eq.
Qed.

Lemma Registry_get_Raise (self : Registry) (t : Z) (i : string) (e : exn) :
  Registry_get self t i = Raise e →
  Registry_getitem self t !! i = None ∧ ∃ k, e = KeyError k.
Proof.
  unfold Registry_get, Registry_getitem.
  destruct (self !! t) as [registry|]; simpl.
  - destruct (registry !! i); intros; simplify_eq; eauto.
  - rewrite lookup_empty. intros; simplify_eq; eauto.
Qed.

Lemma Registry_getitem_register (self self' : Registry) (d : ElementClass)
    (t : Z) (i : string) :
  Registry_register self (Subclass d) = Ok self' →
  Registry_getitem self' t !! i =
    if decide (t = type d ∧ i = id d) then Some (Subclass d)
    else Registry_getitem self t !! i.
Proof.
  unfold Registry_register, Registry_getitem.
  destruct (default ∅ (self !! type d) !! id d) eqn:E; [done|].
  intros [= <-]. destruct (decide (t = type d)) as [->|Ht].
  - rewrite lookup_insert_eq. simpl.
    destruct (decide (i = id d)) as [->|Hi].
    + rewrite lookup_insert_eq. by rewrite decide_True.
    + rewrite lookup_insert_ne by done. rewrite decide_False; [done|].
      intros [_ ?]; done.
  - rewrite lookup_insert_ne by done. rewrite decide_False; [done|].
    intros [? _]; done.
Qed.

(** C7.  [Registry.register] raises [TypeError] (InvalidRegistrationError)
    for the abstract base class; it raises [ValueError] (DuplicateIdError),
    leaving the registry as it was, exactly when a descriptor is already
    registered under the (type, id) of the class; otherwise it succeeds and
    the new registry returns the class under its (type, id) and is unchanged
    elsewhere.  Whichever of two classes with the same (type, id) is
    registered first, registering the other one afterwards fails. *)
Theorem Registry_register_spec (self : Registry) :
  Registry_register self Element =
    Raise (TypeError "Cannot register base class Element")
  ∧ (∀ d : ElementClass,
       match Registry_get self (type d) (id d) with
       | Ok _ =>
           Registry_register self (Subclass d) =
             Raise (ValueError (qualname d))
       | Raise _ =>
           ∃ self', Registry_register self (Subclass d) = Ok self'
             ∧ Registry_get self' (type d) (id d) = Ok (Subclass d)
             ∧ ∀ t i, (t, i) ≠ (type d, id d) →
                 Registry_getitem self' t !! i = Registry_getitem self t !! i
       end)
  ∧ (∀ (d1 d2 : ElementClass) (self' : Registry),
       type d1 = type d2 → id d1 = id d2 →
       Registry_register self (Subclass d1) = Ok self' →
       Registry_register self' (Subclass d2) =
         Raise (ValueError (qualname d2))).
Proof.
  split; [done|]. split.
  - intros d. destruct (Registry_get self (type d) (id d)) as [c|e] eqn:E.
    + apply Registry_get_Ok in E. unfold Registry_getitem in E.
      unfold Registry_register. by rewrite E.
    + apply Registry_get_Raise in E as [E _]. unfold Registry_getitem in E.
      destruct (Registry_register self (Subclass d)) as [self'|e'] eqn:R;
        [|unfold Registry_register in R; by rewrite E in R].
      exists self'. split; [done|]. split.
      * apply Registry_get_Ok.
        rewrite (Registry_getitem_register _ _ _ _ _ R).
        by rewrite decide_True.
      * intros t i Hne. rewrite (Registry_getitem_register _ _ _ _ _ R).
        rewrite decide_False; [done|]. intros [-> ->]. done.
  - intros d1 d2 self' Ht Hi R.
    assert (Registry_getitem self' (type d2) !! id d2 = Some (Subclass d1))
      as E.
    { rewrite (Registry_getitem_register _ _ _ _ _ R).
      by rewrite decide_True. }
    unfold Registry_getitem in E. unfold Registry_register. by rewrite E.
Qed.

(** Both registration orders of [Wizard] and [Wizard2] fail at the second
    class. *)
Lemma Registry_register_spec_witness :
  (Registry_register {[CLASS := {[ "wizard" := Subclass Wizard ]}]}
     (Subclass Wizard2) = Raise (ValueError "Wizard2"))
  ∧ (Registry_register {[CLASS := {[ "wizard" := Subclass Wizard2 ]}]}
       (Subclass Wizard) = Raise (ValueError "Wizard")).
Proof.
  split.
  - apply (proj2 (proj2 (Registry_register_spec ∅)) Wizard Wizard2);
      reflexivity.
  - apply (proj2 (proj2 (Registry_register_spec ∅)) Wizard2 Wizard);
      reflexivity.
Defined.

(** C8.  [Registry.get] raises [KeyError] (NotFoundError) exactly when no
    descriptor is registered under (type, id) and returns the registered
    descriptor otherwise; [Registry.__getitem__] is total and returns the
    empty mapping for a type without registered descriptors. *)
Theorem Registry_get_spec (self : Registry) (t : Z) (i : string) :
  ((∃ k, Registry_get self t i = Raise (KeyError k))
     ↔ ∀ registry, self !! t = Some registry → registry !! i = None)
  ∧ (∀ registry cls, self !! t = Some registry → registry !! i = Some cls →
       Registry_get self t i = Ok cls)
  ∧ (∀ e, Registry_get self t i = Raise e → ∃ k, e = KeyError k)
  ∧ (∀ cls, Registry_getitem self t !! i = Some cls ↔
            ∃ registry, self !! t = Some registry ∧ registry !! i = Some cls)
  ∧ (self !! t = None → Registry_getitem self t = ∅).
Proof.
  unfold Registry_get, Registry_getitem.
  destruct (self !! t) as [registry|] eqn:Et; simpl.
  - destruct (registry !! i) as [cls|] eqn:Ei.
    + split; [|split; [|split; [|split]]].
      * split; [intros [k ?]; discriminate|].
        intros N. specialize (N registry eq_refl). congruence.
      * intros r c [= <-]. congruence.
      * discriminate.
      * intros c. split.
        -- intros [= <-]. by exists registry.
        -- intros (r & [= <-] & ?). congruence.
      * discriminate.
    + split; [|split; [|split; [|split]]].
      * split; [intros _ r [= <-]; done|]. intros _. by exists (KStr i).
      * intros r c [= <-]. congruence.
      * intros e [= <-]. by exists (KStr i).
      * intros c. split; [discriminate|].
        intros (r & [= <-] & ?). congruence.
      * discriminate.
  - rewrite lookup_empty. split; [|split; [|split; [|split]]].
    + split; [discriminate|]. intros _. by exists (KInt t).
    + discriminate.
    + intros e [= <-]. by exists (KInt t).
    + intros c. split; [discriminate|]. intros (r & ? & _). discriminate.
    + done.
Qed.

Lemma Registry_get_spec_witness :
  Registry_get {[CLASS := {[ "wizard" := Subclass Wizard ]}]} CLASS "wizard"
    = Ok (Subclass Wizard).
Proof.
  apply (proj1 (proj2 (Registry_get_spec _ CLASS "wizard"))
           {[ "wizard" := Subclass Wizard ]}); reflexivity.
Defined.

(** ** Counting elements *)

Lemma foldl_add (a : Z) (l : list Z) : foldl Z.add a l = a + sum l.
Proof.
  unfold sum. revert a. induction l as [|x l IH]; intros a; simpl; [lia|].
  rewrite (IH (a + x)), (IH (0 + x)). lia.
Qed.

Lemma sum_cons (x : Z) (l : list Z) : sum (x :: l) = x + sum l.
Proof. unfold sum at 1. simpl. apply foldl_add. Qed.

Lemma sum_id_matches (i : string) (group : list Instance) :
  sum (map (λ x, Z.b2z (String.eqb i (id (inst_cls x)))) group)
  = Z.of_nat (occurrences i group).
Proof.
  unfold occurrences. induction group as [|x group IH]; [done|].
  rewrite map_cons, sum_cons, IH, filter_cons.
  destruct (String.eqb_spec i (id (inst_cls x))) as [E|E].
  - rewrite decide_True by done. simpl. lia.
  - rewrite decide_False by done. simpl. lia.
Qed.

(** The result of [count_elements] on a resolved reference: the number of
    instances with the descriptor's id in the group of the descriptor's
    type. *)
Lemma count_elements_resolved (self : Character) (element : ElementRef)
    (d : ElementClass) :
  resolve (_registry self) element = Ok (Subclass d) →
  Character_count_elements self element =
    Ok (Z.of_nat
          (occurrences (id d) (Character_get_elements_by_type self (type d)))).
Proof.
  intros R. unfold Character_count_elements. rewrite R.
  by rewrite sum_id_matches.
Qed.

Lemma count_elements_unregistered (self : Character) (t : Z) (i : string) :
  Registry_getitem (_registry self) t !! i = None →
  ∃ k, Character_count_elements self (RefPair t i) = Raise (KeyError k).
Proof.
  intros E. unfold Character_count_elements. simpl.
  destruct (Registry_get (_registry self) t i) as [cls|e] eqn:G.
  - apply Registry_get_Ok in G. congruence.
  - apply Registry_get_Raise in G as [_ [k ->]]. eauto.
Qed.

Lemma occurrences_Permutation (i : string) (l1 l2 : list Instance) :
  map inst_cls l1 ≡ₚ map inst_cls l2 → occurrences i l1 = occurrences i l2.
Proof.
  intros P. unfold occurrences.
  assert (∀ l, length (filter (λ x, id (inst_cls x) = i) l)
               = length (filter (λ d, id d = i) (map inst_cls l))) as E.
  { induction l as [|x l IH]; [done|]. rewrite map_cons, !filter_cons.
    destruct (decide (id (inst_cls x) = i)); simpl; by rewrite IH. }
  rewrite !E. by rewrite P.
Qed.

(** ** Character construction *)

(** The first loop appends, in order, one fresh instance per reference to
    the group of the type of the class the reference resolves to. *)
Lemma init_elements_Ok (registry : Registry) (refs : list ElementRef)
    (elems elems' : gmap Z (list Instance)) :
  init_elements registry refs elems = Ok elems' →
  ∃ ds, Forall2 (λ ref d, resolve registry ref = Ok (Subclass d)) refs ds
    ∧ ∀ t, default [] (elems' !! t) =
            default [] (elems !! t) ++ map new (filter (λ d, type d = t) ds).
Proof.
  revert elems. induction refs as [|ref refs IH]; intros elems; simpl.
  - intros [= <-]. exists []. split; [constructor|].
    intros t. by rewrite app_nil_r.
  - destruct (resolve registry ref) as [[|d]|e] eqn:R; try done.
    intros I. apply IH in I as (ds & F & G). exists (d :: ds).
    split; [by constructor|]. intros t. rewrite G, filter_cons.
    destruct (decide (type d = t)) as [<-|Hne].
    + rewrite lookup_insert_eq. simpl. by rewrite <- app_assoc.
    + by rewrite lookup_insert_ne.
Qed.

Lemma init_elements_Raise (registry : Registry) (refs : list ElementRef)
    (elems : gmap Z (list Instance)) (e : exn) :
  init_elements registry refs elems = Raise e →
  (e = AttributeError "type" ∧
     ∃ ref, ref ∈ refs ∧ resolve registry ref = Ok Element)
  ∨ (∃ t i k, RefPair t i ∈ refs ∧ e = KeyError k
       ∧ Registry_getitem registry t !! i = None).
Proof.
  revert elems. induction refs as [|ref refs IH]; intros elems; simpl;
    [done|].
  destruct (resolve registry ref) as [[|d]|e'] eqn:R.
  - intros [= <-]. left. split; [done|]. exists ref. split; [left|done].
  - intros I. apply IH in I as [(-> & r & ? & ?)|(t & i & k & ? & ? & ?)].
    + left. split; [done|]. exists r. split; [by right|done].
    + right. exists t, i, k. split; [by right|done].
  - intros [= <-]. right. destruct ref as [cls|t i]; [done|]. simpl in R.
    apply Registry_get_Raise in R as [? [k ->]].
    exists t, i, k. split; [left|done].
Qed.

(** The second loop appends one fresh instance per class, and requires each
    class to be a Variable of type VARIABLE. *)
Lemma init_variables_Ok (classes : list Class) (group group' : list Instance) :
  init_variables classes group = Ok group' →
  ∃ ds, classes = map Subclass ds
    ∧ Forall (λ d, is_Variable d = true ∧ type d = VARIABLE) ds
    ∧ group' = group ++ map new ds.
Proof.
  revert group. induction classes as [|[|d] classes IH]; intros group; simpl.
  - intros [= <-]. exists []. by rewrite app_nil_r.
  - done.
  - destruct (is_Variable d && (type d =? VARIABLE)) eqn:A; [|done].
    apply andb_true_iff in A as [A1 A2]. apply Z.eqb_eq in A2.
    intros I. apply IH in I as (ds & -> & F & ->). exists (d :: ds).
    split; [done|]. split; [by constructor|]. by rewrite <- app_assoc.
Qed.

Lemma init_variables_Raise (classes : list Class) (group : list Instance)
    (e : exn) :
  init_variables classes group = Raise e → e = AssertionError.
Proof.
  revert group. induction classes as [|[|d] classes IH]; intros group; simpl;
    try congruence.
  destruct (is_Variable d && (type d =? VARIABLE)); [apply IH|congruence].
Qed.

(** The groups of a constructed character. *)
Lemma Character_init_Ok (refs : list ElementRef) (registry : Registry)
    (c : Character) :
  Character_init refs registry = Ok c →
  _registry c = registry
  ∧ (∃ vs, (map_to_list (Registry_getitem registry VARIABLE)).*2
             = map Subclass vs
       ∧ Forall (λ d, is_Variable d = true ∧ type d = VARIABLE) vs
       ∧ elements c !! VARIABLE = Some (map new vs))
  ∧ (∃ ds, Forall2 (λ ref d, resolve registry ref = Ok (Subclass d)) refs ds
       ∧ ∀ t, t ≠ VARIABLE →
           Character_get_elements_by_type c t =
             map new (filter (λ d, type d = t) ds)).
Proof.
  unfold Character_init.
  destruct (init_elements registry refs ∅) as [elems|] eqn:I; [|done].
  destruct (init_variables _ []) as [group|] eqn:V; [|done].
  intros [= <-]. simpl. split; [done|].
  apply init_variables_Ok in V as (vs & E & F & ->).
  apply init_elements_Ok in I as (ds & F2 & G). split.
  - exists vs. by rewrite lookup_insert_eq.
  - exists ds. split; [done|]. intros t Ht.
    unfold Character_get_elements_by_type. simpl.
    rewrite lookup_insert_ne by done. rewrite G. by rewrite lookup_empty.
Qed.

Lemma Character_init_Raise (refs : list ElementRef) (registry : Registry)
    (e : exn) :
  Character_init refs registry = Raise e →
  e = AssertionError
  ∨ (e = AttributeError "type" ∧
       ∃ ref, ref ∈ refs ∧ resolve registry ref = Ok Element)
  ∨ (∃ t i k, RefPair t i ∈ refs ∧ e = KeyError k
       ∧ Registry_getitem registry t !! i = None).
Proof.
  unfold Character_init.
  destruct (init_elements registry refs ∅) as [elems|e1] eqn:I.
  - destruct (init_variables _ []) as [group|e2] eqn:V; [done|].
    intros [= <-]. left. by apply init_variables_Raise in V.
  - intros [= <-]. right. by apply init_elements_Raise in I.
Qed.

Lemma Character_init_party :
  Character_init party_refs class_registry = Ok party.
Proof. vm_compute. reflexivity. Qed.

(** C4, as the claim states it, fails: on the character holding three
    wizards and one fighter, counting the pair [(CLASS, "rogue")], an id that
    is not registered, raises [KeyError] and does not return 0. *)
Lemma count_elements_unregistered_pair_raises :
  Character_init party_refs class_registry = Ok party
  ∧ Character_count_elements party (RefPair CLASS "wizard") = Ok 3
  ∧ Character_count_elements party (RefPair CLASS "rogue")
      = Raise (KeyError (KStr "rogue"))
  ∧ Character_count_elements party (RefPair CLASS "rogue") ≠ Ok 0.
Proof. repeat split; try (vm_compute; reflexivity). discriminate. Qed.

(** C4, amended.  On a character whose group of type [TYPE_X] holds three
    instances of the descriptor [wizard] and one of [fighter], in any order,
    [count_elements] returns 3 for the wizard, given as a literal or as its
    registered pair.  For an id [i] of that type that is not registered, the
    pair [(TYPE_X, i)] raises [KeyError] (NotFoundError), and a descriptor
    literal of that type with an id other than that of the wizard and the
    fighter returns 0.  The result depends on the group of [TYPE_X] alone:
    instances of other types are never counted.  A descriptor literal of
    that type is counted by its id alone, registered or not: 3 with the id
    of the wizard, 1 with the id of the fighter, 0 with any other id. *)
Theorem count_elements_spec (self : Character) (TYPE_X : Z)
    (wizard fighter : ElementClass) :
  type wizard = TYPE_X → type fighter = TYPE_X → id wizard ≠ id fighter →
  map inst_cls (Character_get_elements_by_type self TYPE_X)
    ≡ₚ [wizard; wizard; wizard; fighter] →
  Character_count_elements self (RefClass (Subclass wizard)) = Ok 3
  ∧ (Registry_get (_registry self) TYPE_X (id wizard) = Ok (Subclass wizard) →
     Character_count_elements self (RefPair TYPE_X (id wizard)) = Ok 3)
  ∧ (∀ i, Registry_getitem (_registry self) TYPE_X !! i = None →
       ∃ k, Character_count_elements self (RefPair TYPE_X i)
              = Raise (KeyError k))
  ∧ (∀ d, type d = TYPE_X → id d ≠ id wizard → id d ≠ id fighter →
       Character_count_elements self (RefClass (Subclass d)) = Ok 0)
  ∧ (∀ (other : Character) (element : ElementRef) (d : ElementClass),
       resolve (_registry self) element = Ok (Subclass d) →
       type d = TYPE_X →
       _registry other = _registry self →
       elements other !! TYPE_X = elements self !! TYPE_X →
       Character_count_elements other element
         = Character_count_elements self element)
  ∧ (∀ d, type d = TYPE_X →
       Character_count_elements self (RefClass (Subclass d))
       = Ok (if decide (id d = id wizard) then 3
             else if decide (id d = id fighter) then 1 else 0)).
Proof.
  intros Hw Hf Hne P.
  set (three := [new wizard; new wizard; new wizard; new fighter]).
  assert (∀ i, occurrences i (Character_get_elements_by_type self TYPE_X)
               = occurrences i three) as Occ.
  { intros i. by apply occurrences_Permutation. }
  assert (occurrences (id wizard) three = 3%nat) as O3.
  { unfold occurrences, three. rewrite !filter_cons, filter_nil. simpl.
    rewrite !decide_True by done. rewrite decide_False by done. done. }
  repeat split.
  - rewrite (count_elements_resolved self _ wizard) by done.
    by rewrite Hw, Occ, O3.
  - intros G. rewrite (count_elements_resolved self _ wizard) by done.
    by rewrite Hw, Occ, O3.
  - intros i. apply count_elements_unregistered.
  - intros d Hd H1 H2.
    rewrite (count_elements_resolved self _ d) by done.
    rewrite Hd, Occ. unfold occurrences, three.
    rewrite !filter_cons, filter_nil. simpl.
    rewrite !(decide_False (P := id wizard = id d)) by done.
    by rewrite decide_False by done.
  - intros other element d R Hd Hr He.
    rewrite (count_elements_resolved self element d) by done.
    rewrite (count_elements_resolved other element d) by (by rewrite Hr).
    unfold Character_get_elements_by_type. by rewrite Hd, He.
  - intros d Hd.
    rewrite (count_elements_resolved self _ d) by done.
    rewrite Hd, Occ. unfold occurrences, three.
    rewrite !filter_cons, filter_nil. simpl.
    destruct (decide (id d = id wizard)) as [E|E].
    + rewrite !(decide_True (P := id wizard = id d)) by done.
      by rewrite (decide_False (P := id fighter = id d)) by congruence.
    + rewrite !(decide_False (P := id wizard = id d)) by done.
      destruct (decide (id d = id fighter)) as [E'|E'].
      * by rewrite (decide_True (P := id fighter = id d)) by done.
      * by rewrite (decide_False (P := id fighter = id d)) by done.
Qed.

Lemma count_elements_spec_witness :
  Character_count_elements party (RefClass (Subclass Wizard)) = Ok 3
  ∧ Character_count_elements party (RefPair CLASS "wizard") = Ok 3
  ∧ (∃ k, Character_count_elements party (RefPair CLASS "rogue")
            = Raise (KeyError k))
  ∧ Character_count_elements party (RefClass (Subclass Rogue)) = Ok 0
  ∧ Character_count_elements
      {| elements := <[RACE := [new WizardRace]]> (elements party);
         _registry := class_registry |} (RefPair CLASS "wizard")
    = Character_count_elements party (RefPair CLASS "wizard")
  ∧ Character_count_elements party (RefClass (Subclass Wizard2)) = Ok 3.
Proof.
  assert (map inst_cls (Character_get_elements_by_type party CLASS)
            ≡ₚ [Wizard; Wizard; Wizard; Fighter]) as P.
  { vm_compute. apply perm_skip, perm_skip, perm_swap. }
  destruct (count_elements_spec party CLASS Wizard Fighter
              eq_refl eq_refl ltac:(discriminate) P)
    as (H1 & H2 & H3 & H4 & H5 & H6).
  split; [exact H1|]. split; [apply H2; reflexivity|].
  split; [apply H3; reflexivity|].
  split; [apply H4; [reflexivity|discriminate|discriminate]|].
  split; [apply (H5 _ _ Wizard); reflexivity|].
  exact (H6 Wizard2 eq_refl).
Defined.

(** ** Descriptor literals *)

Lemma resolve_literal (registry registry' : Registry) (element : ElementRef) :
  is_literal element → resolve registry element = resolve registry' element.
Proof. by destruct element. Qed.

Lemma init_elements_literals (registry registry' : Registry)
    (refs : list ElementRef) (elems : gmap Z (list Instance)) :
  Forall is_literal refs →
  init_elements registry refs elems = init_elements registry' refs elems.
Proof.
  intros F. revert elems. induction F as [|ref refs L F IH]; intros elems;
    simpl; [done|].
  rewrite (resolve_literal registry registry' ref L).
  destruct (resolve registry' ref) as [[|d]|e]; [done| |done]. apply IH.
Qed.

Lemma Forall2_resolve_literals (registry : Registry)
    (ds ds' : list ElementClass) :
  Forall2 (λ ref d, resolve registry ref = Ok (Subclass d))
    (map (λ d, RefClass (Subclass d)) ds) ds' →
  ds' = ds.
Proof.
  revert ds'. induction ds as [|d ds IH]; intros ds' F; simpl in F.
  - by inversion F.
  - inversion F as [|? d' ? ds'' R F']; subst. simpl in R.
    injection R as <-. f_equal. by apply IH.
Qed.

Lemma occurrences_new_filter (i : string) (t : Z) (ds : list ElementClass) :
  occurrences i (map new (filter (λ d, type d = t) ds))
  = length (filter (λ d, type d = t ∧ id d = i) ds).
Proof.
  unfold occurrences. induction ds as [|d ds IH]; [done|].
  rewrite !filter_cons.
  destruct (decide (type d = t)) as [Et|Et].
  - rewrite map_cons, filter_cons. simpl.
    destruct (decide (id d = i)) as [Ei|Ei].
    + rewrite decide_True by done. simpl. by rewrite IH.
    + rewrite decide_False by (by intros [_ ?]). done.
  - rewrite decide_False by (by intros [? _]). done.
Qed.

Lemma occurrences_map_new (i : string) (vs : list ElementClass) :
  occurrences i (map new vs) = length (filter (λ v, id v = i) vs).
Proof.
  unfold occurrences. induction vs as [|v vs IH]; [done|].
  rewrite map_cons, !filter_cons. simpl.
  destruct (decide (id v = i)); simpl; by rewrite IH.
Qed.

(** C10, as the claim states it, fails for a literal of type VARIABLE: the
    Variable [Level], never registered and named twice in the construction
    list, is instantiated twice and dropped when the constructor resets the
    VARIABLE group, so that the character holds no instance of it and
    [count_elements] returns 0. *)
Lemma unregistered_variable_literal_is_dropped :
  Character_init [RefClass (Subclass Level); RefClass (Subclass Level)] ∅
  = Ok {| elements := {[ VARIABLE := [] ]}; _registry := ∅ |}
  ∧ Character_count_elements
      {| elements := {[ VARIABLE := [] ]}; _registry := ∅ |}
      (RefClass (Subclass Level)) = Ok 0
  ∧ Character_count_elements
      {| elements := {[ VARIABLE := [] ]}; _registry := ∅ |}
      (RefClass (Subclass Level)) ≠ Ok 2.
Proof. repeat split; try (vm_compute; reflexivity). discriminate. Qed.

(** C10, amended.  A descriptor literal is never looked up in the Registry.
    [count_elements] on a literal returns, under every registry, the number
    of instances with the descriptor's id in the group of its type, and so
    never raises.  The first loop of the constructor treats a list of
    literals the same under every registry, and constructing a character
    from literals never raises [KeyError] (NotFoundError).  When the
    constructor succeeds on a list of literals, a descriptor of a type other
    than VARIABLE is counted as many times as the list names a descriptor
    with its type and id, whether or not it is registered.  A (type, id)
    pair is resolved through the Registry: with no descriptor registered
    under it, both the constructor and [count_elements] raise [KeyError].
    A literal of type VARIABLE is dropped by the reset of the VARIABLE
    group: whatever the construction list is, its count is the number of
    the classes registered under VARIABLE that have its id. *)
Theorem literal_reference_bypasses_registry (registry : Registry) :
  (∀ (self : Character) (d : ElementClass),
     Character_count_elements
       {| elements := elements self; _registry := registry |}
       (RefClass (Subclass d))
     = Ok (Z.of_nat (occurrences (id d)
                       (Character_get_elements_by_type self (type d)))))
  ∧ (∀ (registry' : Registry) (refs : list ElementRef) elems,
       Forall is_literal refs →
       init_elements registry refs elems = init_elements registry' refs elems)
  ∧ (∀ (refs : list ElementRef) (k : pykey),
       Forall is_literal refs →
       Character_init refs registry ≠ Raise (KeyError k))
  ∧ (∀ (ds : list ElementClass) (c : Character) (d : ElementClass),
       Character_init (map (λ d, RefClass (Subclass d)) ds) registry = Ok c →
       type d ≠ VARIABLE →
       Character_count_elements c (RefClass (Subclass d))
       = Ok (Z.of_nat
               (length (filter (λ d', type d' = type d ∧ id d' = id d) ds))))
  ∧ (∀ (t : Z) (i : string) (self : Character),
       Registry_getitem registry t !! i = None →
       (∃ k, Character_init [RefPair t i] registry = Raise (KeyError k))
       ∧ (∃ k, Character_count_elements
                 {| elements := elements self; _registry := registry |}
                 (RefPair t i) = Raise (KeyError k)))
  ∧ (∀ (refs : list ElementRef) (c : Character) (d : ElementClass),
       Character_init refs registry = Ok c →
       type d = VARIABLE →
       ∃ vs, (map_to_list (Registry_getitem registry VARIABLE)).*2
               = map Subclass vs
         ∧ Character_count_elements c (RefClass (Subclass d))
           = Ok (Z.of_nat (length (filter (λ v, id v = id d) vs)))).
Proof.
  split; [|split; [|split; [|split; [|split]]]].
  - intros self d. by rewrite (count_elements_resolved _ _ d).
  - intros registry' refs elems. apply init_elements_literals.
  - intros refs k F E.
    apply Character_init_Raise in E as [E|[[E _]|(t & i & k' & I & _)]];
      try done.
    rewrite Forall_forall in F. by apply F in I.
  - intros ds c d I Hd.
    apply Character_init_Ok in I as (_ & _ & ds' & F & G).
    apply Forall2_resolve_literals in F as ->.
    rewrite (count_elements_resolved _ _ d) by done.
    rewrite G by done. by rewrite occurrences_new_filter.
  - intros t i self E. split.
    + unfold Character_init. simpl.
      destruct (Registry_get registry t i) as [cls|e] eqn:G.
      * apply Registry_get_Ok in G. congruence.
      * apply Registry_get_Raise in G as [_ [k ->]]. eauto.
    + by apply count_elements_unregistered.
  - intros refs c d I Hd.
    apply Character_init_Ok in I as (_ & (vs & E & _ & G) & _).
    exists vs. split; [done|].
    rewrite (count_elements_resolved _ _ d) by done.
    unfold Character_get_elements_by_type. rewrite Hd, G. simpl.
    by rewrite occurrences_map_new.
Qed.

(** The never registered [Rogue], named twice, is held twice by a character
    built over the empty registry, and is counted twice. *)
Lemma literal_reference_bypasses_registry_witness :
  Character_init [RefClass (Subclass Rogue); RefClass (Subclass Wizard);
                  RefClass (Subclass Rogue)] ∅
    ≠ Raise (KeyError (KStr "rogue"))
  ∧ Character_count_elements
      {| elements := {[ CLASS := [new Rogue; new Wizard; new Rogue];
                        VARIABLE := [] ]};
         _registry := ∅ |} (RefClass (Subclass Rogue)) = Ok 2
  ∧ ∃ k, Character_init [RefPair CLASS "rogue"] ∅ = Raise (KeyError k).
Proof.
  destruct (literal_reference_bypasses_registry ∅)
    as (_ & _ & H3 & H4 & H5 & _).
  split; [apply H3; repeat constructor|].
  split.
  - apply (H4 [Rogue; Wizard; Rogue]); [vm_compute; reflexivity|discriminate].
  - apply (H5 CLASS "rogue" party). reflexivity.
Defined.

(** ** Formulas *)

Section Properties.

Context `{!Objects}.

Lemma bind_Some {A B} (m : M A) (k : A → M B) (s : State) :
  (m ≫= k) s =
    match m s with
    | None => None
    | Some (Raise e, s') => Some (Raise e, s')
    | Some (Ok a, s') => k a s'
    end.
Proof. reflexivity. Qed.

(** C6.  [has(ref)] evaluates to true exactly when [count(ref)] evaluates
    to a value greater than 0: [count] returns an integer or raises, without
    a change of state, and [has] returns the comparison of that integer
    with 0, or raises the same exception. *)
Theorem has_iff_count_positive (fuel : nat) (element : ElementRef)
    (s : State) :
  ((∃ s', Formula_eval fuel (Formula_has element) s
            = Some (Ok (VBool true), s'))
   ↔ ∃ n s', Formula_eval fuel (Formula_count element) s
               = Some (Ok (VInt n), s') ∧ 0 < n)
  ∧ match Formula_eval fuel (Formula_count element) s with
    | Some (Ok (VInt n), s') =>
        s' = s ∧ Formula_eval fuel (Formula_has element) s
                 = Some (Ok (VBool (bool_decide (0 < n))), s)
    | Some (Raise e, s') =>
        s' = s ∧ Formula_eval fuel (Formula_has element) s
                 = Some (Raise e, s)
    | _ => False
    end.
Proof.
  unfold Formula_eval, Formula_has, Formula_count. simpl.
  rewrite !bind_Some. unfold lift.
  destruct (Character_count_elements (character s) element) as [n|e]; simpl.
  - unfold mret, M_ret. split.
    + split.
      * intros [s' [= E <-]]. exists n, s. split; [done|]. lia.
      * intros (n' & s' & [= <- <-] & Hn). exists s.
        by rewrite (proj2 (Z.ltb_lt 0 n) Hn).
    + split; [done|]. do 3 f_equal.
      destruct (Z.ltb_spec 0 n).
      * by rewrite bool_decide_eq_true_2.
      * rewrite bool_decide_eq_false_2; [done|lia].
  - split; [|done]. split.
    + intros [s' ?]. done.
    + intros (n & s' & ? & _). done.
Qed.

Lemma Formula_operator_applied (get_variable : string → M value)
    (self : Formula) (op : operator) (value : operand) (s : State) :
  Formula_call get_variable (Formula_operator self op value) s
  = applied get_variable op (Callable self) value s.
Proof. by destruct value. Qed.

Lemma Formula_roperator_applied (get_variable : string → M value)
    (self : Formula) (op : operator) (value : operand) (s : State) :
  Formula_call get_variable (Formula_roperator self op value) s
  = applied get_variable op value (Callable self) s.
Proof. by destruct value. Qed.

(** C5.  Each of the five operator methods of [Formula] builds a Formula
    that evaluates [self], then the other operand, and applies its own
    operator to the two values in that order; each of the five reflected
    methods builds one that evaluates the other operand, then [self], and
    applies its own operator to the two values in that order (the other
    operand is the left one).  So for each operator sign and each pair of
    operands of which one at least is a Formula, the Formula the expression
    [x op y] builds evaluates [x], then [y] in the state [x] left, and
    applies the operator to the two values in that order; an exception of
    [x] ends the evaluation before [y] is evaluated.  [const(2) + const(3)]
    evaluates to 5 on every character, [const(2) - const(3)] and
    [2 - const(3)] to -1, [const(7) // const(2)] and [7 // const(2)] to 3,
    and [var("level") * const(4)] to four times the integer the variable
    evaluates to. *)
Theorem operator_spec (get_variable : string → M value) (op : operator)
    (x y : operand) (s : State) :
  match binary op x y with
  | None => ∃ v w, x = Constant v ∧ y = Constant w
  | Some F =>
      Formula_call get_variable F s =
        match operand_call get_variable x s with
        | None => None
        | Some (Raise e, s1) => Some (Raise e, s1)
        | Some (Ok a, s1) =>
            match operand_call get_variable y s1 with
            | None => None
            | Some (Raise e, s2) => Some (Raise e, s2)
            | Some (Ok b, s2) => Some (apply_operator op a b, s2)
            end
        end
  end
  ∧ (∀ fuel, Formula_eval fuel
               (Formula_add (Formula_const (VInt 2))
                  (Callable (Formula_const (VInt 3)))) s
             = Some (Ok (VInt 5), s))
  ∧ (∀ fuel level n s',
       Character_get_variable fuel "level" s = Some (Ok level, s') →
       as_int level = Some n →
       Formula_eval fuel
         (Formula_mul (Formula_var "level")
            (Callable (Formula_const (VInt 4)))) s
       = Some (Ok (VInt (4 * n)), s'))
  ∧ (∀ self value,
       Formula_call get_variable (Formula_add self value) s
       = applied get_variable add (Callable self) value s
       ∧ Formula_call get_variable (Formula_sub self value) s
         = applied get_variable sub (Callable self) value s
       ∧ Formula_call get_variable (Formula_mul self value) s
         = applied get_variable mul (Callable self) value s
       ∧ Formula_call get_variable (Formula_truediv self value) s
         = applied get_variable truediv (Callable self) value s
       ∧ Formula_call get_variable (Formula_floordiv self value) s
         = applied get_variable floordiv (Callable self) value s)
  ∧ (∀ self value,
       Formula_call get_variable (Formula_radd self value) s
       = applied get_variable add value (Callable self) s
       ∧ Formula_call get_variable (Formula_rsub self value) s
         = applied get_variable sub value (Callable self) s
       ∧ Formula_call get_variable (Formula_rmul self value) s
         = applied get_variable mul value (Callable self) s
       ∧ Formula_call get_variable (Formula_rtruediv self value) s
         = applied get_variable truediv value (Callable self) s
       ∧ Formula_call get_variable (Formula_rfloordiv self value) s
         = applied get_variable floordiv value (Callable self) s)
  ∧ (∀ fuel,
       Formula_eval fuel
         (Formula_sub (Formula_const (VInt 2))
            (Callable (Formula_const (VInt 3)))) s
       = Some (Ok (VInt (-1)), s)
       ∧ Formula_eval fuel
           (Formula_rsub (Formula_const (VInt 3)) (Constant (VInt 2))) s
         = Some (Ok (VInt (-1)), s)
       ∧ Formula_eval fuel
           (Formula_floordiv (Formula_const (VInt 7))
              (Callable (Formula_const (VInt 2)))) s
         = Some (Ok (VInt 3), s)
       ∧ Formula_eval fuel
           (Formula_rfloordiv (Formula_const (VInt 2)) (Constant (VInt 7))) s
         = Some (Ok (VInt 3), s)
       ∧ Formula_eval fuel
           (Formula_radd (Formula_const (VInt 3)) (Constant (VInt 2))) s
         = Some (Ok (VInt 5), s)
       ∧ Formula_eval fuel
           (Formula_rmul (Formula_const (VInt 3)) (Constant (VInt 2))) s
         = Some (Ok (VInt 6), s)
       ∧ Formula_eval fuel
           (Formula_floordiv (Formula_const (VInt 7)) (Constant (VInt 0))) s
         = Some (Raise ZeroDivisionError, s)).
Proof.
  split; [|split; [|split; [|split; [|split]]]].
  - destruct x as [f|v], y as [g|w].
    + destruct op; exact (Formula_operator_applied get_variable f _ _ s).
    + destruct op; exact (Formula_operator_applied get_variable f _ _ s).
    + destruct op; exact (Formula_roperator_applied get_variable g _ _ s).
    + simpl. eauto.
  - intros fuel. reflexivity.
  - intros fuel level n s' E A. unfold Formula_eval. simpl.
    rewrite bind_Some. fold (Character_get_variable fuel "level").
    rewrite E. simpl. unfold lift, apply_operator. rewrite A. simpl.
    rewrite bind_Some. simpl. by rewrite (Z.mul_comm n 4).
  - intros self value. repeat split; apply Formula_operator_applied.
  - intros self value. repeat split; apply Formula_roperator_applied.
  - intros fuel. repeat split.
Qed.

(** ** The in-progress flags *)

#[local] Instance lock_le_refl : Reflexive lock_le.
Proof. by intros x. Qed.

#[local] Instance lock_le_trans : Transitive lock_le.
Proof.
  intros x y z [E1 L1] [E2 L2]. split; [congruence|auto].
Qed.

#[local] Instance more_locked_refl : Reflexive more_locked.
Proof. intros c. repeat split. reflexivity. Qed.

#[local] Instance more_locked_trans : Transitive more_locked.
Proof.
  intros c1 c2 c3 (R1 & G1 & V1) (R2 & G2 & V2). split; [congruence|].
  split; [intros t Ht; rewrite G2, G1; done|]. by etrans.
Qed.

Lemma set_lock_more_locked (c : Character) (index : nat) :
  more_locked c (set_lock index true c).
Proof.
  unfold set_lock. split; [done|]. split; simpl.
  - intros t Ht. by rewrite lookup_alter_ne.
  - rewrite lookup_alter_eq.
    destruct (elements c !! VARIABLE) as [group|]; constructor.
    apply Forall2_lookup. intros i.
    destruct (decide (index = i)) as [->|Hne].
    + rewrite list_lookup_alter_eq. destruct (group !! i); by constructor.
    + rewrite list_lookup_alter_ne by done. reflexivity.
Qed.

(** Setting and then clearing the flag of an instance whose flag was clear
    gives the character back. *)
Lemma set_lock_restore (c : Character) (group : list Instance) (index : nat)
    (var : Instance) :
  elements c !! VARIABLE = Some group → group !! index = Some var →
  _lock var = false →
  set_lock index false (set_lock index true c) = c.
Proof.
  intros G I L. destruct c as [elems registry]. unfold set_lock. simpl in *.
  f_equal. apply map_eq. intros t.
  destruct (decide (t = VARIABLE)) as [->|Ht].
  - rewrite !lookup_alter_eq, G. simpl. f_equal.
    apply list_eq. intros i. destruct (decide (index = i)) as [->|Hne].
    + rewrite !list_lookup_alter_eq, I. simpl. destruct var; simpl in *.
      by subst.
    + by rewrite !list_lookup_alter_ne.
  - by rewrite !lookup_alter_ne.
Qed.

Lemma more_locked_unlocked (c c' : Character) :
  more_locked c c' → (unlocked c' ≤ unlocked c)%nat.
Proof.
  intros (_ & _ & V). unfold unlocked, Character_get_elements_by_type.
  destruct V as [group group' F|]; simpl; [|done].
  induction F as [|x y l k [_ L] F IH]; [done|].
  rewrite !filter_cons.
  destruct (decide (_lock y = false)) as [Ey|Ey].
  - rewrite decide_True; [simpl; lia|]. destruct (_lock x); [|done].
    rewrite L in Ey; done.
  - destruct (decide (_lock x = false)); simpl; lia.
Qed.

Lemma set_lock_unlocked (c : Character) (group : list Instance) (index : nat)
    (var : Instance) :
  elements c !! VARIABLE = Some group → group !! index = Some var →
  _lock var = false →
  (unlocked (set_lock index true c) < unlocked c)%nat.
Proof.
  intros G I L. unfold unlocked, Character_get_elements_by_type, set_lock.
  simpl. rewrite lookup_alter_eq, G. simpl. clear G.
  revert index I. induction group as [|x group IH]; intros index I; [done|].
  destruct index as [|index]; simpl in *.
  - injection I as ->. rewrite !filter_cons. simpl.
    rewrite decide_True by done. simpl. lia.
  - specialize (IH index I). unfold alter in IH. rewrite !filter_cons.
    destruct (decide (_lock x = false)); simpl; lia.
Qed.

Lemma foldl_insert_lookup {A} (key : A → string) (l : list A)
    (m : gmap string A) (i : string) (x : A) :
  foldl (λ variables iv, <[key iv := iv]> variables) m l !! i = Some x →
  (x ∈ l ∧ key x = i) ∨ m !! i = Some x.
Proof.
  revert m. induction l as [|y l IH]; intros m; simpl; [by right|].
  intros E. apply IH in E as [[E1 E2]|E].
  - left. split; [by right|done].
  - destruct (decide (key y = i)) as [<-|Hne].
    + rewrite lookup_insert_eq in E. injection E as <-.
      left. split; [left|done].
    + rewrite lookup_insert_ne in E by done. by right.
Qed.

(** An entry of [Character.variables] is an instance of the VARIABLE group,
    at its position, under its own id. *)
Lemma Character_variables_lookup (c : Character)
    (variables : gmap string (nat * Instance)) (i : string) (index : nat)
    (var : Instance) :
  Character_variables c = Ok variables →
  variables !! i = Some (index, var) →
  ∃ group, elements c !! VARIABLE = Some group ∧ group !! index = Some var
           ∧ id (inst_cls var) = i.
Proof.
  unfold Character_variables.
  destruct (elements c !! VARIABLE) as [group|]; [|done].
  intros [= <-] E. exists group. split; [done|].
  apply (foldl_insert_lookup (λ iv, id (inst_cls iv.2))) in E
    as [[E1 E2]|E]; [|by rewrite lookup_empty in E].
  apply elem_of_lookup_imap_1 in E1 as (k & y & [= -> ->] & ?). done.
Qed.

Lemma evaluated_refl (s : State) (r : outcome value) : evaluated s r s.
Proof.
  split; [reflexivity|]. split; [done|]. exists []. by rewrite app_nil_r.
Qed.

Lemma evaluated_bind (s s1 s' : State) (a : value) (r : outcome value) :
  evaluated s (Ok a) s1 → evaluated s1 r s' → evaluated s r s'.
Proof.
  intros (M1 & C1 & log1 & H1) (M2 & C2 & log2 & H2).
  split; [by etrans|]. split.
  - intros v E. rewrite (C2 v E). by apply (C1 a).
  - exists (log1 ++ log2). by rewrite H2, H1, app_assoc.
Qed.

Lemma Formula_call_evaluated (get_variable : string → M value) (f : Formula) :
  get_variable_evaluated get_variable →
  ∀ s r s', Formula_call get_variable f s = Some (r, s') → evaluated s r s'.
Proof.
  intros GV.
  induction f as [v|name|element|element|expr IHe t IHt e IHf
                 |self IHs op func IHf|self IHs op func IHf|k f IH];
    intros s r s'; simpl.
  - intros [= <- <-]. apply evaluated_refl.
  - apply GV.
  - rewrite bind_Some. unfold lift.
    destruct (Character_count_elements _ _); intros [= <- <-];
      apply evaluated_refl.
  - rewrite bind_Some. unfold lift.
    destruct (Character_count_elements _ _); intros [= <- <-];
      apply evaluated_refl.
  - rewrite bind_Some.
    destruct (Formula_call get_variable expr s) as [[[b|x] s1]|] eqn:E;
      [|intros [= <- <-]; by eapply IHe|done].
    apply IHe in E. intros E'. eapply evaluated_bind; [exact E|].
    destruct (truthy b); [by eapply IHt|by eapply IHf].
  - rewrite bind_Some.
    destruct (Formula_call get_variable self s) as [[[a|x] s1]|] eqn:E;
      [|intros [= <- <-]; by eapply IHs|done].
    apply IHs in E. rewrite bind_Some.
    destruct (Formula_call get_variable func s1) as [[[b|x] s2]|] eqn:E2;
      [|intros [= <- <-]; eapply evaluated_bind; [exact E|by eapply IHf]
       |done].
    apply IHf in E2. unfold lift. intros [= <- <-].
    destruct E as (M1 & C1 & L1), E2 as (M2 & C2 & log2 & L2).
    split; [by etrans|]. split.
    + intros _ _. rewrite (C2 b eq_refl). by apply (C1 a).
    + destruct L1 as [log1 L1]. exists (log1 ++ log2).
      by rewrite L2, L1, app_assoc.
  - rewrite bind_Some.
    destruct (Formula_call get_variable func s) as [[[a|x] s1]|] eqn:E;
      [|intros [= <- <-]; by eapply IHf|done].
    apply IHf in E. rewrite bind_Some.
    destruct (Formula_call get_variable self s1) as [[[b|x] s2]|] eqn:E2;
      [|intros [= <- <-]; eapply evaluated_bind; [exact E|by eapply IHs]
       |done].
    apply IHs in E2. unfold lift. intros [= <- <-].
    destruct E as (M1 & C1 & L1), E2 as (M2 & C2 & log2 & L2).
    split; [by etrans|]. split.
    + intros _ _. rewrite (C2 b eq_refl). by apply (C1 a).
    + destruct L1 as [log1 L1]. exists (log1 ++ log2).
      by rewrite L2, L1, app_assoc.
  - rewrite bind_Some. simpl. intros E. apply IH in E.
    destruct E as (M1 & C1 & log & L). split; [done|]. split; [done|].
    exists (k :: log). rewrite L. simpl. by rewrite <- app_assoc.
Qed.

Lemma Character_get_variable_via_evaluated (call : nat → Instance → M value) :
  (∀ index var s r s' group,
     elements (character s) !! VARIABLE = Some group →
     group !! index = Some var →
     call index var s = Some (r, s') → evaluated s r s') →
  get_variable_evaluated (Character_get_variable_via call).
Proof.
  intros Hcall name s r s'. unfold Character_get_variable_via.
  destruct (Character_variables (character s)) as [variables|e] eqn:V;
    [|intros [= <- <-]; apply evaluated_refl].
  destruct (variables !! name) as [[index var]|] eqn:L;
    [|intros [= <- <-]; apply evaluated_refl].
  destruct (Character_variables_lookup _ _ _ _ _ V L) as (group & G & I & _).
  by apply (Hcall index var s r s' group).
Qed.

(** One call of a Variable instance of the VARIABLE group: flags are only
    set, and a returned value leaves every flag as it was found. *)
Lemma Variable_call_evaluated (fuel : nat) (index : nat) (var : Instance)
    (s : State) (r : outcome value) (s' : State) (group : list Instance) :
  elements (character s) !! VARIABLE = Some group →
  group !! index = Some var →
  Variable_call fuel index var s = Some (r, s') → evaluated s r s'.
Proof.
  revert index var s r s' group.
  induction fuel as [|fuel IH]; intros index var s r s' group G I; simpl;
    [done|].
  destruct (formula (inst_cls var)) as [f|];
    [|intros [= <- <-]; apply evaluated_refl].
  destruct (_lock var) eqn:L; [intros [= <- <-]; apply evaluated_refl|].
  rewrite bind_Some. simpl. rewrite bind_Some.
  set (s0 := {| character := set_lock index true (character s);
                hits := hits s |}).
  destruct (Formula_call _ f s0) as [[[v|x] s1]|] eqn:E; [| |done].
  - apply Formula_call_evaluated in E;
      [|apply Character_get_variable_via_evaluated; intros; by eapply IH].
    destruct E as (M1 & C1 & log & L1). rewrite bind_Some. simpl.
    intros [= <- <-]. simpl. rewrite (C1 v eq_refl). simpl.
    rewrite (set_lock_restore _ group index var) by done.
    split; [reflexivity|]. split; [done|]. by exists log.
  - apply Formula_call_evaluated in E;
      [|apply Character_get_variable_via_evaluated; intros; by eapply IH].
    destruct E as (M1 & C1 & log & L1). intros [= <- <-].
    split; [|split; [done|by exists log]].
    etrans; [|exact M1]. apply set_lock_more_locked.
Qed.

Lemma Character_get_variable_evaluated (fuel : nat) :
  get_variable_evaluated (Character_get_variable fuel).
Proof.
  apply Character_get_variable_via_evaluated. intros.
  by eapply Variable_call_evaluated.
Qed.

Lemma Formula_eval_evaluated (fuel : nat) (f : Formula) (s : State)
    (r : outcome value) (s' : State) :
  Formula_eval fuel f s = Some (r, s') → evaluated s r s'.
Proof.
  apply Formula_call_evaluated, Character_get_variable_evaluated.
Qed.

(** *** Termination: the flags bound the depth of nested evaluations *)

Lemma Formula_call_total (get_variable : string → M value) (f : Formula)
    (n : nat) :
  get_variable_evaluated get_variable →
  (∀ name s, (unlocked (character s) ≤ n)%nat → is_Some (get_variable name s)) →
  ∀ s, (unlocked (character s) ≤ n)%nat →
       is_Some (Formula_call get_variable f s).
Proof.
  intros GV T.
  assert (∀ g s r s', Formula_call get_variable g s = Some (r, s') →
            (unlocked (character s) ≤ n)%nat →
            (unlocked (character s') ≤ n)%nat) as Step.
  { intros g s r s' E Hs.
    apply (Formula_call_evaluated _ _ GV) in E as (M1 & _).
    apply more_locked_unlocked in M1. lia. }
  induction f as [v|name|element|element|expr IHe t IHt e IHf
                 |self IHs op func IHf|self IHs op func IHf|k f IH];
    intros s Hs; simpl.
  - by eexists.
  - by apply T.
  - rewrite bind_Some. unfold lift.
    destruct (Character_count_elements _ _); by eexists.
  - rewrite bind_Some. unfold lift.
    destruct (Character_count_elements _ _); by eexists.
  - rewrite bind_Some.
    destruct (Formula_call get_variable expr s) as [[[b|x] s1]|] eqn:E;
      [|by eexists|destruct (IHe s Hs); congruence].
    apply Step in E; [|done]. destruct (truthy b); auto.
  - rewrite bind_Some.
    destruct (Formula_call get_variable self s) as [[[a|x] s1]|] eqn:E;
      [|by eexists|destruct (IHs s Hs); congruence].
    apply Step in E; [|done]. rewrite bind_Some.
    destruct (Formula_call get_variable func s1) as [[[b|x] s2]|] eqn:E2;
      [by eexists|by eexists|destruct (IHf s1 E); congruence].
  - rewrite bind_Some.
    destruct (Formula_call get_variable func s) as [[[a|x] s1]|] eqn:E;
      [|by eexists|destruct (IHf s Hs); congruence].
    apply Step in E; [|done]. rewrite bind_Some.
    destruct (Formula_call get_variable self s1) as [[[b|x] s2]|] eqn:E2;
      [by eexists|by eexists|destruct (IHs s1 E); congruence].
  - rewrite bind_Some. simpl. by apply IH.
Qed.

Lemma Character_get_variable_via_total (call : nat → Instance → M value)
    (s : State) (name : string) :
  (∀ index var group,
     elements (character s) !! VARIABLE = Some group →
     group !! index = Some var → is_Some (call index var s)) →
  is_Some (Character_get_variable_via call name s).
Proof.
  intros Hcall. unfold Character_get_variable_via.
  destruct (Character_variables (character s)) as [variables|e] eqn:V;
    [|by eexists].
  destruct (variables !! name) as [[index var]|] eqn:L; [|by eexists].
  destruct (Character_variables_lookup _ _ _ _ _ V L) as (group & G & I & _).
  by apply (Hcall index var group).
Qed.

Lemma Variable_call_total (fuel : nat) (index : nat) (var : Instance)
    (s : State) (group : list Instance) :
  elements (character s) !! VARIABLE = Some group →
  group !! index = Some var →
  (unlocked (character s) < fuel)%nat →
  is_Some (Variable_call fuel index var s).
Proof.
  revert index var s group.
  induction fuel as [|fuel IH]; intros index var s group G I Hf; simpl;
    [lia|].
  destruct (formula (inst_cls var)) as [f|]; [|by eexists].
  destruct (_lock var) eqn:L; [by eexists|].
  rewrite bind_Some. simpl. rewrite bind_Some.
  set (s0 := {| character := set_lock index true (character s);
                hits := hits s |}).
  pose proof (set_lock_unlocked _ _ _ _ G I L) as Hlt.
  destruct (Formula_call _ f s0) as [[[v|x] s1]|] eqn:E;
    [by eexists|by eexists|].
  exfalso.
  pose proof (Formula_call_total
                (Character_get_variable_via (Variable_call fuel)) f
                (unlocked (character s0))) as T.
  destruct T with (s := s0) as [? T']; [| |done|congruence].
  - apply Character_get_variable_via_evaluated. intros.
    by eapply Variable_call_evaluated.
  - intros name s2 Hs2. apply Character_get_variable_via_total.
    intros index2 var2 group2 G2 I2. apply (IH _ _ _ group2); [done|done|].
    simpl in Hs2. lia.
Qed.

(** With more fuel than there are Variable instances whose flag is clear,
    the model never runs out of fuel: every evaluation returns or raises. *)
Lemma Character_get_variable_total (fuel : nat) (name : string) (s : State) :
  (unlocked (character s) < fuel)%nat →
  is_Some (Character_get_variable fuel name s).
Proof.
  intros Hf. apply Character_get_variable_via_total. intros.
  by eapply Variable_call_total.
Qed.

Lemma Formula_eval_total (fuel : nat) (f : Formula) (s : State) :
  (unlocked (character s) < fuel)%nat → is_Some (Formula_eval fuel f s).
Proof.
  intros Hf.
  apply (Formula_call_total _ _ (unlocked (character s)));
    [apply Character_get_variable_evaluated| |done].
  intros name s2 Hs2. apply Character_get_variable_total. lia.
Qed.

(** *** More fuel changes no result *)

Lemma Formula_call_mono (gv gv' : string → M value) (f : Formula) :
  (∀ name s x, gv name s = Some x → gv' name s = Some x) →
  ∀ s x, Formula_call gv f s = Some x → Formula_call gv' f s = Some x.
Proof.
  intros Hgv.
  induction f as [v|name|element|element|expr IHe t IHt e IHf
                 |self IHs op func IHf|self IHs op func IHf|k f IH];
    intros s x; simpl; try done.
  - apply Hgv.
  - rewrite !bind_Some.
    destruct (Formula_call gv expr s) as [[[b|e'] s1]|] eqn:E; [| |done];
      rewrite (IHe _ _ E); [|done].
    destruct (truthy b); auto.
  - rewrite !bind_Some.
    destruct (Formula_call gv self s) as [[[a|e'] s1]|] eqn:E; [| |done];
      rewrite (IHs _ _ E); [|done].
    rewrite !bind_Some.
    destruct (Formula_call gv func s1) as [[[b|e'] s2]|] eqn:E2; [| |done];
      by rewrite (IHf _ _ E2).
  - rewrite !bind_Some.
    destruct (Formula_call gv func s) as [[[a|e'] s1]|] eqn:E; [| |done];
      rewrite (IHf _ _ E); [|done].
    rewrite !bind_Some.
    destruct (Formula_call gv self s1) as [[[b|e'] s2]|] eqn:E2; [| |done];
      by rewrite (IHs _ _ E2).
  - rewrite !bind_Some. simpl. apply IH.
Qed.

Lemma Variable_call_mono (fuel : nat) (index : nat) (var : Instance)
    (s : State) (x : outcome value * State) :
  Variable_call fuel index var s = Some x →
  Variable_call (S fuel) index var s = Some x.
Proof.
  revert index var s x.
  induction fuel as [|fuel IH]; intros index var s x; [done|].
  change (Variable_call (S (S fuel)) index var) with
    (match formula (inst_cls var) with
     | None => raise (TypeError "object is not callable")
     | Some f =>
         if _lock var
         then raise (CircularDependencyError index (inst_cls var))
         else
           update (set_lock index true) ≫= λ _,
           Formula_call
             (Character_get_variable_via (Variable_call (S fuel))) f ≫= λ value,
           update (set_lock index false) ≫= λ _, mret value
     end).
  simpl. destruct (formula (inst_cls var)) as [f|]; [|done].
  destruct (_lock var); [done|].
  rewrite !bind_Some. simpl. rewrite !bind_Some.
  destruct (Formula_call (Character_get_variable_via (Variable_call fuel)) f _)
    as [y|] eqn:E; [|done].
  erewrite Formula_call_mono; [done| |exact E].
  intros name s2 z. unfold Character_get_variable_via.
  destruct (Character_variables (character s2)); [|done].
  destruct (_ !! name) as [[i v]|]; [|done]. apply IH.
Qed.

Lemma Character_get_variable_mono (fuel fuel' : nat) (name : string)
    (s : State) (x : outcome value * State) :
  (fuel ≤ fuel')%nat →
  Character_get_variable fuel name s = Some x →
  Character_get_variable fuel' name s = Some x.
Proof.
  induction 1 as [|fuel' _ IH]; [done|]. intros E. specialize (IH E).
  revert IH. unfold Character_get_variable, Character_get_variable_via.
  destruct (Character_variables (character s)); [|done].
  destruct (_ !! name) as [[i v]|]; [|done]. apply Variable_call_mono.
Qed.

(** ** Conditionals *)

(** C9.  One evaluation of [if_(expr, t, f)], with the branches instrumented
    by the probes [kt] and [kf], evaluates [expr] once; when [expr] raises,
    the exception is the result and no branch is entered; when it returns
    [b], exactly the probe of the branch selected by the truthiness of [b]
    is recorded, once, after what [expr] recorded, and the result is that of
    the selected branch evaluated in the state [expr] left.  The result of
    the conditional is the same whatever formula stands in the place of the
    branch that is not selected. *)
Theorem if_evaluates_selected_branch (get_variable : string → M value)
    (expr t f : Formula) (kt kf : nat) (s : State) :
  match Formula_call get_variable expr s with
  | None =>
      Formula_call get_variable
        (Formula_if_ expr (FProbe kt t) (FProbe kf f)) s = None
  | Some (Raise e, s1) =>
      Formula_call get_variable
        (Formula_if_ expr (FProbe kt t) (FProbe kf f)) s
      = Some (Raise e, s1)
  | Some (Ok b, s1) =>
      Formula_call get_variable
        (Formula_if_ expr (FProbe kt t) (FProbe kf f)) s
      = Formula_call get_variable (if truthy b then t else f)
          {| character := character s1;
             hits := hits s1 ++ [if truthy b then kt else kf] |}
      ∧ ∀ other : Formula,
          if truthy b
          then Formula_call get_variable (Formula_if_ expr t other) s
               = Formula_call get_variable t s1
          else Formula_call get_variable (Formula_if_ expr other f) s
               = Formula_call get_variable f s1
  end.
Proof.
  unfold Formula_if_. simpl. rewrite bind_Some.
  destruct (Formula_call get_variable expr s) as [[[b|e] s1]|] eqn:E;
    [|done|done].
  split.
  - destruct (truthy b); simpl; by rewrite bind_Some.
  - intros other. destruct (truthy b) eqn:B; simpl; rewrite bind_Some, E;
      by rewrite B.
Qed.

(** ** The VARIABLE group *)

Lemma Registry_wf_empty : Registry_wf ∅.
Proof.
  intros t i cls. unfold Registry_getitem. by rewrite !lookup_empty.
Qed.

(** Registration keeps every class under its own type and id. *)
Lemma Registry_wf_register (self self' : Registry) (cls : Class) :
  Registry_wf self → Registry_register self cls = Ok self' →
  Registry_wf self'.
Proof.
  intros W R t i c. destruct cls as [|d]; [done|].
  rewrite (Registry_getitem_register _ _ _ _ _ R).
  case_decide as D.
  - destruct D as [-> ->]. intros [= <-]. by exists d.
  - apply W.
Qed.

Lemma filter_eq_NoDup (i : string) (l : list string) :
  NoDup l →
  length (filter (λ k, k = i) l) = if decide (i ∈ l) then 1%nat else 0%nat.
Proof.
  induction 1 as [|k l Hk ND IH]; [done|]. rewrite filter_cons.
  destruct (decide (k = i)) as [->|Hne].
  - simpl. rewrite IH. rewrite decide_False by done.
    rewrite decide_True by left. done.
  - rewrite IH. destruct (decide (i ∈ l)) as [Hi|Hi].
    + rewrite decide_True by (by right). done.
    + rewrite decide_False; [done|].
      intros [?|?]%elem_of_cons; congruence.
Qed.

Lemma ids_of_registered (l : list (string * Class)) (vs : list ElementClass) :
  l.*2 = map Subclass vs →
  Forall (λ kc, ∃ d, kc.2 = Subclass d ∧ id d = kc.1) l →
  map id vs = l.*1.
Proof.
  revert vs. induction l as [|[k cls] l IH]; intros vs E F.
  - by destruct vs.
  - destruct vs as [|d vs]; [done|]. simpl in E. injection E as -> E.
    inversion F as [|? ? (d' & D & Hd) F']; subst. simpl in *.
    injection D as <-. by rewrite (IH vs), Hd.
Qed.

Lemma occurrences_new (i : string) (vs : list ElementClass) :
  occurrences i (map new vs) = length (filter (λ k, k = i) (map id vs)).
Proof.
  unfold occurrences. induction vs as [|d vs IH]; [done|].
  rewrite !map_cons, !filter_cons. simpl.
  destruct (decide (id d = i)); simpl; by rewrite IH.
Qed.

Lemma more_locked_classes (c c' : Character) (group : list Instance) :
  more_locked c c' → elements c !! VARIABLE = Some group →
  ∃ group', elements c' !! VARIABLE = Some group'
            ∧ map inst_cls group' = map inst_cls group.
Proof.
  intros (_ & _ & V) G. rewrite G in V.
  destruct (elements c' !! VARIABLE) as [group'|]; [|inversion V].
  exists group'. split; [done|]. inversion V as [? ? F|]; subst. clear V G.
  induction F as [|x y l k [E _] F IH]; [done|]. simpl. by rewrite E, IH.
Qed.

(** C3.  After a successful construction the VARIABLE group is the list of
    fresh instances of the classes registered under VARIABLE, one per
    registered entry and nothing else, whatever the construction list is.
    Over a registry built by [register], every registered id occurs exactly
    once among the instances and no other id occurs.  Evaluations keep the
    instances of the group: they change flags only. *)
Theorem VARIABLE_group_spec (refs : list ElementRef) (registry : Registry)
    (c : Character) :
  Character_init refs registry = Ok c →
  ∃ group, elements c !! VARIABLE = Some group
    ∧ (λ x, Subclass (inst_cls x)) <$> group
      = (map_to_list (Registry_getitem registry VARIABLE)).*2
    ∧ Forall (λ x, _lock x = false) group
    ∧ (Registry_wf registry →
       ∀ i, occurrences i group
            = if Registry_getitem registry VARIABLE !! i is Some _ then 1%nat
              else 0%nat)
    ∧ (∀ refs' c', Character_init refs' registry = Ok c' →
                   elements c' !! VARIABLE = Some group)
    ∧ (∀ fuel f s r s',
         character s = c → Formula_eval fuel f s = Some (r, s') →
         ∃ group', elements (character s') !! VARIABLE = Some group'
                   ∧ map inst_cls group' = map inst_cls group).
Proof.
  intros I. pose proof (Character_init_Ok _ _ _ I) as (_ & (vs & E & F & G) & _).
  exists (map new vs). split; [done|].
  split; [|split; [|split; [|split]]].
  - rewrite E. clear. induction vs as [|d vs IH]; [done|].
    simpl. by rewrite <- IH.
  - clear. induction vs; by constructor.
  - intros W i. rewrite occurrences_new.
    rewrite (ids_of_registered _ vs E).
    + rewrite filter_eq_NoDup by apply NoDup_fst_map_to_list.
      destruct (Registry_getitem registry VARIABLE !! i) as [cls|] eqn:L.
      * rewrite decide_True; [done|]. apply list_elem_of_fmap.
        exists (i, cls). split; [done|]. by apply elem_of_map_to_list.
      * rewrite decide_False; [done|].
        intros ([k cls] & -> & Hin)%list_elem_of_fmap.
        apply elem_of_map_to_list in Hin. simpl in L. congruence.
    + apply Forall_forall. intros [k cls] Hin.
      apply elem_of_map_to_list in Hin. apply W in Hin as (d & -> & _ & <-).
      by exists d.
  - intros refs' c' I'.
    pose proof (Character_init_Ok _ _ _ I') as (_ & (vs' & E' & _ & G') & _).
    rewrite G'. do 2 f_equal. rewrite E in E'.
    clear -E'. revert vs' E'. induction vs as [|d vs IH]; intros [|d' vs'] E';
      try done.
    simpl in E'. injection E' as -> E'. f_equal. by apply IH.
  - intros fuel f s r s' <- Ev.
    apply Formula_eval_evaluated in Ev as (Ml & _).
    by apply (more_locked_classes _ _ _ Ml).
Qed.

(** ** Variable evaluation *)

(** An instance whose flag is set raises at once, naming itself, and leaves
    the state as it is: its formula is not called. *)
Lemma Variable_call_locked (fuel index : nat) (var : Instance) (s : State) :
  is_Variable (inst_cls var) = true → _lock var = true →
  Variable_call (S fuel) index var s
  = Some (Raise (CircularDependencyError index (inst_cls var)), s).
Proof.
  unfold is_Variable. intros V L. simpl.
  destruct (formula (inst_cls var)); [|done]. by rewrite L.
Qed.

(** A call that returns a value found the flag clear and leaves it clear,
    together with every other flag. *)
Lemma Variable_call_returns (fuel index : nat) (var : Instance) (s s' : State)
    (v : value) (group : list Instance) :
  elements (character s) !! VARIABLE = Some group →
  group !! index = Some var →
  Variable_call fuel index var s = Some (Ok v, s') →
  _lock var = false ∧ character s' = character s.
Proof.
  intros G I E. split.
  - destruct fuel as [|fuel]; [done|]. simpl in E.
    destruct (formula (inst_cls var)); [|done]. by destruct (_lock var).
  - apply (Variable_call_evaluated _ _ _ _ _ _ _ G I) in E as (_ & C & _).
    by apply (C v).
Qed.

(** *** Agreement with the evaluation by call chain *)

Lemma same_instances_set_lock (c0 c : Character) (index : nat) (b : bool) :
  same_instances c0 c → same_instances c0 (set_lock index b c).
Proof.
  intros (R & G & V). split; [done|]. split; simpl.
  - intros t Ht. rewrite lookup_alter_ne by done. by apply G.
  - rewrite lookup_alter_eq. destruct V as [group0 group F|]; simpl;
      constructor.
    apply Forall2_lookup. intros i. rewrite Forall2_lookup in F.
    specialize (F i). destruct (decide (index = i)) as [->|Hne].
    + rewrite list_lookup_alter_eq. destruct F; by constructor.
    + by rewrite list_lookup_alter_ne.
Qed.

Lemma same_instances_lookup (c0 c : Character) (index : nat)
    (var0 var : Instance) :
  same_instances c0 c →
  Character_get_elements_by_type c0 VARIABLE !! index = Some var0 →
  Character_get_elements_by_type c VARIABLE !! index = Some var →
  inst_cls var = inst_cls var0.
Proof.
  intros (_ & _ & V). unfold Character_get_elements_by_type.
  destruct V as [group0 group F|]; simpl; [|done].
  intros I0 I. rewrite Forall2_lookup in F. specialize (F index).
  rewrite I0, I in F. by inversion F.
Qed.

Lemma same_instances_count (c0 c : Character) (element : ElementRef) :
  same_instances c0 c →
  Character_count_elements c element = Character_count_elements c0 element.
Proof.
  intros (R & G & V). unfold Character_count_elements. rewrite R.
  destruct (resolve (_registry c0) element) as [[|d]|e]; try done.
  rewrite !sum_id_matches. do 2 f_equal.
  unfold Character_get_elements_by_type.
  destruct (decide (type d = VARIABLE)) as [->|Ht]; [|by rewrite G].
  destruct V as [group0 group F|]; simpl; [|done].
  apply occurrences_Permutation.
  assert (map inst_cls group = map inst_cls group0) as ->; [|done].
  induction F as [|x y l k E F IH]; [done|]. simpl. by rewrite E, IH.
Qed.

Lemma chain_locked_set (chain : list nat) (c : Character) (index : nat) :
  chain_locked chain c → chain_locked (index :: chain) (set_lock index true c).
Proof.
  intros CL i var. unfold Character_get_elements_by_type, set_lock. simpl.
  rewrite lookup_alter_eq. specialize (CL i).
  unfold Character_get_elements_by_type in CL.
  destruct (elements c !! VARIABLE) as [group|]; simpl in *; [|done].
  destruct (decide (index = i)) as [->|Hne].
  - rewrite list_lookup_alter_eq. destruct (group !! i); [|done].
    simpl. intros [= <-]. simpl. split; [intros _; left|done].
  - rewrite list_lookup_alter_ne by done. intros I. rewrite (CL var I).
    rewrite elem_of_cons. split; [by right|]. by intros [?|?].
Qed.

Lemma chain_locked_clear (chain : list nat) (c : Character) (index : nat) :
  index ∉ chain → chain_locked (index :: chain) c →
  chain_locked chain (set_lock index false c).
Proof.
  intros Hn CL i var. unfold Character_get_elements_by_type, set_lock. simpl.
  rewrite lookup_alter_eq. specialize (CL i).
  unfold Character_get_elements_by_type in CL.
  destruct (elements c !! VARIABLE) as [group|]; simpl in *; [|done].
  destruct (decide (index = i)) as [->|Hne].
  - rewrite list_lookup_alter_eq. destruct (group !! i); [|done].
    simpl. intros [= <-]. simpl. split; [done|]. intros ?. done.
  - rewrite list_lookup_alter_ne by done. intros I. rewrite (CL var I).
    rewrite elem_of_cons. split; [by intros [?|?]|by right].
Qed.

Lemma chain_locked_idle (c : Character) : idle c ↔ chain_locked [] c.
Proof.
  unfold idle, chain_locked. rewrite Forall_lookup. split.
  - intros Hi index var I. rewrite (Hi index var I). split; [done|].
    intros ?%elem_of_nil. done.
  - intros CL index var I. destruct (_lock var) eqn:L; [|done].
    apply (CL index var I) in L. by apply elem_of_nil in L.
Qed.

Lemma variables_related (group0 group : list Instance) (n : nat)
    (m0 m : gmap string (nat * Instance)) (name : string) :
  Forall2 (λ x y, inst_cls y = inst_cls x) group0 group →
  option_Forall2 (λ a b, a.1 = b.1) (m0 !! name) (m !! name) →
  option_Forall2 (λ a b, a.1 = b.1)
    (foldl (λ variables iv, <[id (inst_cls iv.2) := iv]> variables) m0
       (imap (λ i var, ((n + i)%nat, var)) group0) !! name)
    (foldl (λ variables iv, <[id (inst_cls iv.2) := iv]> variables) m
       (imap (λ i var, ((n + i)%nat, var)) group) !! name).
Proof.
  intros F. revert n m0 m.
  induction F as [|x y l k E F IH]; intros n m0 m Hm; [done|].
  rewrite !imap_cons. simpl.
  rewrite (imap_ext _ (λ i var, ((S n + i)%nat, var)) l)
    by (intros; simpl; f_equal; lia).
  rewrite (imap_ext _ (λ i var, ((S n + i)%nat, var)) k)
    by (intros; simpl; f_equal; lia).
  apply IH. rewrite E.
  destruct (decide (id (inst_cls x) = name)) as [<-|Hne].
  - rewrite !lookup_insert_eq. by constructor.
  - by rewrite !lookup_insert_ne.
Qed.

(** Under corresponding characters the dicts of variables have the same ids,
    at the same positions. *)
Lemma Character_variables_related (c0 c : Character) :
  same_instances c0 c →
  match Character_variables c0, Character_variables c with
  | Ok variables0, Ok variables =>
      ∀ name, option_Forall2 (λ a b, a.1 = b.1)
                (variables0 !! name) (variables !! name)
  | Raise e0, Raise e => e0 = e
  | _, _ => False
  end.
Proof.
  intros (_ & _ & V). unfold Character_variables.
  destruct V as [group0 group F|]; [|done].
  intros name. apply (variables_related group0 group 0 ∅ ∅ name F).
  rewrite !lookup_empty. constructor.
Qed.

Lemma agree_bind (chain : list nat) (m m' : M value) (k k' : value → M value)
    (sc ss : State) :
  agree chain (m sc) (m' ss) →
  (∀ v sc' ss', sim chain sc' ss' → agree chain (k v sc') (k' v ss')) →
  agree chain ((m ≫= k) sc) ((m' ≫= k') ss).
Proof.
  intros A K. rewrite !bind_Some.
  destruct (m sc) as [[[v|e] sc']|], (m' ss) as [[[w|e'] ss']|];
    simpl in *; try done.
  destruct A as [<- S]. by apply K.
Qed.

Lemma agree_lift (chain : list nat) (f : Character → outcome value)
    (sc ss : State) :
  sim chain sc ss → f (character sc) = f (character ss) →
  agree chain (lift f sc) (lift f ss).
Proof.
  intros S E. unfold lift. rewrite E. simpl.
  destruct (f (character ss)); [done|]. split; [done|]. apply S.
Qed.

Lemma Formula_call_agree (chain : list nat) (gvc gvs : string → M value)
    (f : Formula) :
  get_variable_agree chain gvc gvs →
  ∀ sc ss, sim chain sc ss →
           agree chain (Formula_call gvc f sc) (Formula_call gvs f ss).
Proof.
  intros GV.
  assert (∀ element sc ss, sim chain sc ss →
            Character_count_elements (character sc) element
            = Character_count_elements (character ss) element) as Count.
  { intros element sc ss S. apply same_instances_count, S. }
  induction f as [v|name|element|element|expr IHe t IHt e IHf
                 |self IHs op func IHf|self IHs op func IHf|k f IH];
    intros sc ss S; simpl.
  - done.
  - by apply GV.
  - rewrite !bind_Some. unfold lift. rewrite (Count element sc ss S).
    destruct (Character_count_elements _ _); [done|]. split; [done|apply S].
  - rewrite !bind_Some. unfold lift. rewrite (Count element sc ss S).
    destruct (Character_count_elements _ _); [done|]. split; [done|apply S].
  - apply agree_bind; [by apply IHe|]. intros b sc' ss' S'.
    destruct (truthy b); auto.
  - apply agree_bind; [by apply IHs|]. intros a sc' ss' S'.
    apply agree_bind; [by apply IHf|]. intros b sc2 ss2 S2.
    by apply agree_lift.
  - apply agree_bind; [by apply IHf|]. intros a sc' ss' S'.
    apply agree_bind; [by apply IHs|]. intros b sc2 ss2 S2.
    by apply agree_lift.
  - rewrite !bind_Some. simpl. apply IH.
    destruct S as (Hh & Hs & Hc). split; [|done]. simpl. by rewrite Hh.
Qed.

Lemma Character_get_variable_via_agree (chain : list nat)
    (callc calls : nat → Instance → M value) :
  (∀ index var var0 sc ss,
     sim chain sc ss →
     Character_get_elements_by_type (character sc) VARIABLE !! index
       = Some var →
     Character_get_elements_by_type (character ss) VARIABLE !! index
       = Some var0 →
     agree chain (callc index var sc) (calls index var0 ss)) →
  get_variable_agree chain (Character_get_variable_via callc)
    (Character_get_variable_via calls).
Proof.
  intros Hcall name sc ss S. unfold Character_get_variable_via.
  pose proof (Character_variables_related _ _ (proj1 (proj2 S))) as R.
  destruct (Character_variables (character ss)) as [vs|es] eqn:Vs,
           (Character_variables (character sc)) as [vc|ec] eqn:Vc;
    try done; [|by (split; [congruence|apply S])].
  specialize (R name).
  destruct (vs !! name) as [[j var0]|] eqn:Ls,
           (vc !! name) as [[i var]|] eqn:Lc; inversion R; subst; simpl in *.
  - destruct (Character_variables_lookup _ _ _ _ _ Vs Ls) as (gs & Gs & Is & _).
    destruct (Character_variables_lookup _ _ _ _ _ Vc Lc) as (gc & Gc & Ic & _).
    subst. apply Hcall; [done| |];
      unfold Character_get_elements_by_type; by rewrite ?Gs, ?Gc.
  - split; [done|apply S].
Qed.

Lemma Variable_call_agree (fuel : nat) (chain : list nat) (index : nat)
    (var var0 : Instance) (sc ss : State) :
  sim chain sc ss →
  Character_get_elements_by_type (character sc) VARIABLE !! index = Some var →
  Character_get_elements_by_type (character ss) VARIABLE !! index = Some var0 →
  agree chain (Variable_call fuel index var sc)
    (chain_Variable_call fuel chain index var0 ss).
Proof.
  revert chain index var var0 sc ss.
  induction fuel as [|fuel IH]; intros chain index var var0 sc ss S Ic Is;
    [done|].
  simpl. destruct S as (Hh & Hs & Hc).
  rewrite (same_instances_lookup _ _ _ _ _ Hs Is Ic).
  destruct (formula (inst_cls var0)) as [f|]; [|done].
  pose proof (Hc index var Ic) as L.
  destruct (bool_decide (index ∈ chain)) eqn:B.
  - apply bool_decide_eq_true in B. apply L in B. by rewrite B.
  - apply bool_decide_eq_false in B.
    destruct (_lock var) eqn:Lv; [by destruct B; apply L|].
    rewrite bind_Some. simpl.
    set (sc0 := {| character := set_lock index true (character sc);
                   hits := hits sc |}).
    assert (sim (index :: chain) sc0 ss) as S0.
    { split; [done|]. split; [by apply same_instances_set_lock|].
      by apply chain_locked_set. }
    pose proof (Formula_call_agree (index :: chain)
                  (Character_get_variable_via (Variable_call fuel))
                  (Character_get_variable_via
                     (chain_Variable_call fuel (index :: chain))) f) as A.
    specialize (A ltac:(apply Character_get_variable_via_agree; intros;
                        by apply IH) sc0 ss S0).
    rewrite bind_Some.
    destruct (Formula_call _ f sc0) as [[[v|e] sc1]|],
             (Formula_call _ f ss) as [[[w|e'] ss1]|]; simpl in A; try done.
    destruct A as (<- & Hh1 & Hs1 & Hc1). rewrite bind_Some. simpl.
    split; [done|]. split; [done|]. simpl.
    split; [by apply same_instances_set_lock|]. by apply chain_locked_clear.
Qed.

(** On a character none of whose flags is set, the code and the evaluation
    by call chain agree: the same value, or the same exception, raised after
    the same probes.  In particular the code then raises
    [CircularDependencyError] exactly for an instance in progress on the
    active call chain, and names it. *)
Lemma Character_get_variable_agree (fuel : nat) (name : string) (s : State) :
  idle (character s) →
  agree [] (Character_get_variable fuel name s)
    (chain_get_variable fuel [] name s).
Proof.
  intros Hi. apply Character_get_variable_via_agree.
  - intros. by apply Variable_call_agree.
  - split; [done|]. split; [|by apply chain_locked_idle].
    split; [done|]. split; [done|].
    destruct (elements (character s) !! VARIABLE); constructor.
    by apply Forall_Forall2_diag, Forall_forall.
Qed.

(** *** The flag after a failure *)

Lemma Character_init_commoner : Character_init [] game_registry = Ok commoner.
Proof. vm_compute. reflexivity. Qed.

Lemma Character_init_hero : Character_init party_refs game_registry = Ok hero.
Proof. vm_compute. reflexivity. Qed.

(** C1: the code leaves the flag set when the formula raises.  The formula
    of [Broken] reads a variable that does not exist.  On the freshly built
    [commoner] its evaluation raises [KeyError] and returns with the flag of
    the instance still set; the next evaluation of the same variable, with
    nothing in progress, raises [CircularDependencyError] instead.  Seven
    variables are registered, so 8 units of fuel and more never run out. *)
Theorem failed_evaluation_leaves_flag_set (fuel : nat) :
  Character_init [] game_registry = Ok commoner
  ∧ Character_get_variable (8 + fuel) "broken" (start commoner)
    = Some (Raise (KeyError (KStr "nowhere")),
            start (commoner_with false false false true))
  ∧ Character_get_variable (8 + fuel) "broken"
      (start (commoner_with false false false true))
    = Some (Raise (CircularDependencyError 2 Broken),
            start (commoner_with false false false true)).
Proof.
  split; [vm_compute; reflexivity|].
  split; apply (Character_get_variable_mono 8); try lia;
    vm_compute; reflexivity.
Qed.

(** C2: a flag left set by an earlier failure is reported as a cycle.
    [ShareA] and [ShareB] both read [Shared] and there is no cycle.  On the
    freshly built [commoner] the formula of [Shared] divides by zero, so the
    evaluation of [a] raises [ZeroDivisionError] and leaves the flags of [a]
    and [c] set.  The evaluation of [b] that follows raises
    [CircularDependencyError] for [c], which is not in progress: the
    evaluation by call chain raises [ZeroDivisionError] there. *)
Theorem stale_flag_reported_as_cycle (fuel : nat) :
  Character_get_variable (8 + fuel) "a" (start commoner)
  = Some (Raise ZeroDivisionError, start (commoner_with true false true false))
  ∧ Character_get_variable (8 + fuel) "b"
      (start (commoner_with true false true false))
    = Some (Raise (CircularDependencyError 0 Shared),
            start (commoner_with true true true false))
  ∧ chain_get_variable 8 [] "b" (start (commoner_with true false true false))
    = Some (Raise ZeroDivisionError,
            start (commoner_with true false true false)).
Proof.
  split; [|split]; try apply (Character_get_variable_mono 8); try lia;
    vm_compute; reflexivity.
Qed.

(** The parts of C2 that hold on a freshly built character: a variable that
    reads itself through another one raises [CircularDependencyError] naming
    the instance that is entered again, and two variables that share a
    dependency both return. *)
Lemma cycle_and_shared_dependency :
  (fst <$> Character_get_variable 8 "ping" (start hero)
   = Some (Raise (CircularDependencyError 6 Ping)))
  ∧ (fst <$> Character_get_variable 8 "pong" (start hero)
     = Some (Raise (CircularDependencyError 5 Pong)))
  ∧ Character_get_variable 8 "a" (start hero)
    = Some (Ok (VInt 3), start hero)
  ∧ Character_get_variable 8 "b" (start hero)
    = Some (Ok (VInt 3), start hero).
Proof. repeat split; vm_compute; reflexivity. Qed.

(** A conditional whose unselected branch would raise: the probe of the
    selected branch is recorded once, and the other branch leaves no
    trace. *)
Lemma if_example :
  Formula_eval 8
    (Formula_if_ (Formula_has (RefPair CLASS "wizard"))
       (FProbe 1 (Formula_var "level")) (FProbe 2 (Formula_var "broken")))
    (start hero)
  = Some (Ok (VInt 3), {| character := hero; hits := [1%nat] |}).
Proof. vm_compute. reflexivity. Qed.

End Properties.

(** * Further properties of the code *)

(** ** Registries built by registration *)

(** The (type, id) a class is registered under. *)
Lemma register_all_Ok (self self' : Registry) (classes : list Class) :
  register_all self classes = Ok self' →
  ∃ ds, classes = map Subclass ds
    ∧ NoDup (map (λ d, (type d, id d)) ds)
    ∧ (∀ d, d ∈ ds → Registry_getitem self (type d) !! id d = None)
    ∧ ∀ t i, Registry_getitem self' t !! i =
        match list_find (λ d, type d = t ∧ id d = i) ds with
        | Some (_, d) => Some (Subclass d)
        | None => Registry_getitem self t !! i
        end.
Proof.
  revert self. induction classes as [|cls classes IH]; intros self; simpl.
  - intros [= <-]. exists []. split; [done|]. split; [constructor|].
    split; [by intros d ?%elem_of_nil|done].
  - destruct (Registry_register self cls) as [self1|e] eqn:R; [|done].
    destruct cls as [|d]; [done|].
    intros A. apply IH in A as (ds & -> & ND & Fresh & L).
    pose proof (λ t i, Registry_getitem_register self self1 d t i R) as L1.
    assert (Registry_getitem self (type d) !! id d = None) as Hd.
    { unfold Registry_register in R. unfold Registry_getitem.
      by destruct (default ∅ (self !! type d) !! id d). }
    exists (d :: ds). split; [done|]. split; [|split].
    + simpl. constructor; [|done]. intros Hin.
      apply list_elem_of_fmap in Hin as (d' & E & Hin).
      specialize (Fresh d' Hin). rewrite L1 in Fresh.
      injection E as E1 E2. rewrite <- E1, <- E2 in Fresh.
      by rewrite decide_True in Fresh.
    + intros d' [->|Hin]%elem_of_cons; [done|].
      specialize (Fresh d' Hin). rewrite L1 in Fresh.
      by case_decide.
    + intros t i. rewrite L. simpl.
      destruct (decide (type d = t ∧ id d = i)) as [[<- <-]|Hne].
      * simpl. destruct (list_find _ ds) as [[k d']|] eqn:F.
        -- apply list_find_Some in F as (Hin%list_elem_of_lookup_2 & [E1 E2] & _).
           specialize (Fresh d' Hin). rewrite L1, E1, E2 in Fresh.
           by rewrite decide_True in Fresh.
        -- rewrite L1. by rewrite decide_True.
      * simpl. destruct (list_find _ ds) as [[k d']|]; [done|].
        rewrite L1. rewrite decide_False; [done|]. intros [-> ->]. by apply Hne.
Qed.

(** X1.  A registry built from the empty one by successive registrations
    stores every class under its own type and id, and never stores the
    abstract base class. *)
Theorem registered_under_own_key (classes : list Class) (registry : Registry) :
  register_all ∅ classes = Ok registry →
  ∀ t i cls, Registry_get registry t i = Ok cls →
             ∃ d, cls = Subclass d ∧ type d = t ∧ id d = i.
Proof.
  intros R t i cls G. apply Registry_get_Ok in G.
  apply register_all_Ok in R as (ds & _ & _ & _ & L). rewrite L in G.
  destruct (list_find _ ds) as [[k d]|] eqn:F.
  - apply list_find_Some in F as (_ & [E1 E2] & _).
    injection G as <-. by exists d.
  - unfold Registry_getitem in G. by rewrite !lookup_empty in G.
Qed.


(** X2.  After a list of classes was registered, [get] returns each class of
    the list under its (type, id), and still returns every class that was
    registered before: registration never removes or replaces an entry. *)
Theorem registered_classes_are_found (self self' : Registry)
    (classes : list Class) :
  register_all self classes = Ok self' →
  (∀ d, Subclass d ∈ classes →
        Registry_get self' (type d) (id d) = Ok (Subclass d))
  ∧ (∀ t i cls, Registry_get self t i = Ok cls →
                Registry_get self' t i = Ok cls).
Proof.
  intros R. apply register_all_Ok in R as (ds & -> & ND & Fresh & L). split.
  - intros d Hin. apply Registry_get_Ok. rewrite L.
    apply list_elem_of_fmap in Hin as (d0 & [= <-] & Hin).
    destruct (list_find _ ds) as [[k d']|] eqn:F.
    + apply list_find_Some in F as (Hk & [E1 E2] & _).
      apply list_elem_of_lookup_1 in Hin as [j Hj].
      assert (k = j) as ->; [|congruence].
      apply (NoDup_lookup _ k j (type d, id d) ND);
        rewrite list_lookup_fmap; [rewrite Hk|rewrite Hj]; simpl;
        by rewrite ?E1, ?E2.
    + apply list_find_None in F. rewrite Forall_forall in F.
      by destruct (F d Hin).
  - intros t i cls G. apply Registry_get_Ok in G. apply Registry_get_Ok.
    rewrite L. destruct (list_find _ ds) as [[k d']|] eqn:F; [|done].
    apply list_find_Some in F as (Hk%list_elem_of_lookup_2 & [E1 E2] & _).
    specialize (Fresh d' Hk). rewrite E1, E2 in Fresh. congruence.
Qed.

(** X3.  Registering a list of classes one after the other succeeds exactly
    when the list does not contain the abstract base class, no two classes
    of the list have the same (type, id), and none of these pairs is
    registered already. *)
Theorem register_all_succeeds_iff (self : Registry) (classes : list Class) :
  (∃ self', register_all self classes = Ok self')
  ↔ ∃ ds, classes = map Subclass ds
      ∧ NoDup (map (λ d, (type d, id d)) ds)
      ∧ ∀ d, d ∈ ds → Registry_getitem self (type d) !! id d = None.
Proof.
  split.
  - intros [self' R]. apply register_all_Ok in R as (ds & ? & ? & ? & _).
    by exists ds.
  - intros (ds & -> & ND & Fresh). revert self Fresh.
    induction ds as [|d ds IH]; intros self Fresh; simpl; [by eexists|].
    inversion ND as [|? ? Hd ND']; subst.
    assert (Registry_getitem self (type d) !! id d = None) as E
      by (apply Fresh; left).
    unfold Registry_register. unfold Registry_getitem in E. rewrite E.
    apply IH; [done|]. intros d' Hin.
    pose proof (λ self', Registry_getitem_register self self' d
                           (type d') (id d')) as L.
    unfold Registry_register in L. rewrite E in L. rewrite (L _ eq_refl).
    rewrite decide_False; [apply Fresh; by right|].
    intros [E1 E2]. apply Hd. apply list_elem_of_fmap. exists d'.
    by rewrite E1, E2.
Qed.


(** ** Construction of a character *)

Lemma init_elements_total (registry : Registry) (refs : list ElementRef)
    (elems : gmap Z (list Instance)) :
  Forall (λ ref, ∃ d, resolve registry ref = Ok (Subclass d)) refs →
  ∃ elems', init_elements registry refs elems = Ok elems'.
Proof.
  intros F. revert elems. induction F as [|ref refs [d R] F IH];
    intros elems; simpl; [by eexists|].
  rewrite R. apply IH.
Qed.

Lemma init_variables_total (classes : list Class) (group : list Instance) :
  Forall (λ cls, ∃ d, cls = Subclass d ∧ is_Variable d = true
                      ∧ type d = VARIABLE) classes →
  ∃ group', init_variables classes group = Ok group'.
Proof.
  intros F. revert group.
  induction F as [|cls classes (d & -> & V & T) F IH]; intros group; simpl;
    [by eexists|].
  rewrite V, T. simpl. apply IH.
Qed.

Lemma elem_of_values (m : gmap string Class) (cls : Class) :
  cls ∈ (map_to_list m).*2 ↔ ∃ i, m !! i = Some cls.
Proof.
  rewrite list_elem_of_fmap. split.
  - intros ([i c] & -> & Hin). exists i. by apply elem_of_map_to_list.
  - intros [i Hi]. exists (i, cls). split; [done|].
    by apply elem_of_map_to_list.
Qed.

Lemma Forall2_resolve_unique (registry : Registry) (refs : list ElementRef)
    (ds ds' : list ElementClass) :
  Forall2 (λ ref d, resolve registry ref = Ok (Subclass d)) refs ds →
  Forall2 (λ ref d, resolve registry ref = Ok (Subclass d)) refs ds' →
  ds = ds'.
Proof.
  intros F. revert ds'. induction F as [|ref d refs ds R F IH]; intros ds' F'.
  - by inversion F'.
  - inversion F' as [|? d' ? ds'' R' F'']; subst. f_equal; [congruence|].
    by apply IH.
Qed.

(** X4.  The constructor succeeds exactly when every reference of the list
    resolves to a class other than the abstract base class and every class
    registered under VARIABLE is a Variable of type VARIABLE. *)
Theorem Character_init_succeeds_iff (refs : list ElementRef)
    (registry : Registry) :
  (∃ c, Character_init refs registry = Ok c)
  ↔ Forall (λ ref, ∃ d, resolve registry ref = Ok (Subclass d)) refs
    ∧ ∀ i cls, Registry_getitem registry VARIABLE !! i = Some cls →
               ∃ d, cls = Subclass d ∧ is_Variable d = true
                    ∧ type d = VARIABLE.
Proof.
  split.
  - intros [c I].
    apply Character_init_Ok in I as (_ & (vs & E & F & _) & ds & F2 & _).
    split.
    + clear -F2. induction F2; constructor; eauto.
    + intros i cls L.
      assert (cls ∈ (map_to_list (Registry_getitem registry VARIABLE)).*2)
        as Hin by (apply elem_of_values; eauto).
      rewrite E in Hin. apply list_elem_of_fmap in Hin as (d & -> & Hin).
      exists d. split; [done|]. rewrite Forall_forall in F. by apply F.
  - intros [F V]. unfold Character_init.
    destruct (init_elements_total registry refs ∅ F) as [elems ->].
    destruct (init_variables_total
                (map_to_list (Registry_getitem registry VARIABLE)).*2 [])
      as [group ->]; [|by eexists].
    apply Forall_forall. intros cls [i Hi]%elem_of_values. by apply (V i).
Qed.

(** X5.  After construction the group of a type other than VARIABLE holds
    one fresh instance per reference that resolves to a class of that type,
    in the order of the construction list and with its repetitions; a type
    no reference resolves to has the empty group. *)
Theorem groups_follow_construction_list (refs : list ElementRef)
    (registry : Registry) (c : Character) (ds : list ElementClass) (t : Z) :
  Character_init refs registry = Ok c →
  Forall2 (λ ref d, resolve registry ref = Ok (Subclass d)) refs ds →
  t ≠ VARIABLE →
  Character_get_elements_by_type c t = map new (filter (λ d, type d = t) ds)
  ∧ (Forall (λ d, type d ≠ t) ds → Character_get_elements_by_type c t = []).
Proof.
  intros I F Ht. apply Character_init_Ok in I as (_ & _ & ds' & F' & G).
  rewrite (Forall2_resolve_unique _ _ _ _ F F'). rewrite (G t Ht).
  split; [done|]. intros N. clear -N.
  induction N as [|d l Hd N IH]; [done|].
  rewrite filter_cons. by rewrite decide_False.
Qed.

(** X6.  On a constructed character, [count_elements] of a reference that
    resolves to a descriptor of a type other than VARIABLE returns the
    number of references of the construction list that resolve to a class
    with the type and the id of that descriptor. *)
Theorem count_follows_construction_list (refs : list ElementRef)
    (registry : Registry) (c : Character) (ds : list ElementClass)
    (element : ElementRef) (d : ElementClass) :
  Character_init refs registry = Ok c →
  Forall2 (λ ref d, resolve registry ref = Ok (Subclass d)) refs ds →
  resolve registry element = Ok (Subclass d) →
  type d ≠ VARIABLE →
  Character_count_elements c element
  = Ok (Z.of_nat
          (length (filter (λ d', type d' = type d ∧ id d' = id d) ds))).
Proof.
  intros I F R Ht.
  pose proof (Character_init_Ok _ _ _ I) as (Hr & _ & ds' & F' & G).
  rewrite (Forall2_resolve_unique _ _ _ _ F F').
  rewrite (count_elements_resolved c element d) by (by rewrite Hr).
  by rewrite (G _ Ht), occurrences_new_filter.
Qed.


Lemma init_elements_app (registry : Registry) (pre rest : list ElementRef)
    (elems : gmap Z (list Instance)) :
  init_elements registry (pre ++ rest) elems
  = match init_elements registry pre elems with
    | Ok elems' => init_elements registry rest elems'
    | Raise e => Raise e
    end.
Proof.
  revert elems. induction pre as [|ref pre IH]; intros elems; simpl; [done|].
  destruct (resolve registry ref) as [[|d]|e]; [done| |done]. apply IH.
Qed.

(** X17.  The constructor fails at the first reference that does not
    resolve to a concrete class, whatever follows it in the list and
    whatever is registered under VARIABLE: with the exception [get] raises
    for an unregistered pair, and with [AttributeError] for the abstract
    base class, which has no type. *)
Theorem Character_init_first_failure (registry : Registry)
    (pre post : list ElementRef) (ref : ElementRef) :
  Forall (λ r, ∃ d, resolve registry r = Ok (Subclass d)) pre →
  (∀ e, resolve registry ref = Raise e →
        Character_init (pre ++ ref :: post) registry = Raise e)
  ∧ (resolve registry ref = Ok Element →
     Character_init (pre ++ ref :: post) registry
     = Raise (AttributeError "type")).
Proof.
  intros F. unfold Character_init. rewrite init_elements_app.
  destruct (init_elements_total registry pre ∅ F) as [elems ->]. simpl.
  split; [intros e ->|intros ->]; done.
Qed.

(** ** The dict of variables *)

Lemma variables_of_snoc (group : list Instance) (x : Instance) :
  variables_of (group ++ [x])
  = <[id (inst_cls x) := (length group, x)]> (variables_of group).
Proof.
  unfold variables_of. rewrite imap_app, foldl_app. simpl.
  by rewrite Nat.add_0_r.
Qed.

Lemma variables_of_lookup (group : list Instance) (i : string) (index : nat)
    (var : Instance) :
  variables_of group !! i = Some (index, var)
  ↔ group !! index = Some var ∧ id (inst_cls var) = i
    ∧ ∀ j var', (index < j)%nat → group !! j = Some var' →
                id (inst_cls var') ≠ i.
Proof.
  revert index var. induction group as [|x group IH] using rev_ind;
    intros index var.
  - unfold variables_of. simpl. rewrite lookup_empty. split; [done|].
    by intros [? _].
  - rewrite variables_of_snoc.
    destruct (decide (id (inst_cls x) = i)) as [E|Hne].
    + rewrite E, lookup_insert_eq. split.
      * intros [= <- <-]. split; [by apply list_lookup_middle|].
        split; [done|]. intros j var' Hj L.
        apply lookup_lt_Some in L. rewrite length_app in L. simpl in L. lia.
      * intros (L & _ & Last).
        destruct (decide (index = length group)) as [->|Hi].
        -- rewrite (list_lookup_middle group [] x (length group) eq_refl) in L. by injection L as <-.
        -- pose proof (lookup_lt_Some _ _ _ L) as Hlt.
           rewrite length_app in Hlt. simpl in Hlt.
           destruct (Last (length group) x); [lia| |done].
           by apply list_lookup_middle.
    + rewrite lookup_insert_ne by done. rewrite IH. split.
      * intros (L & E & Last). split; [by apply lookup_app_l_Some|].
        split; [done|]. intros j var' Hj L'.
        destruct (decide (j = length group)) as [->|Hj'].
        -- rewrite (list_lookup_middle group [] x (length group) eq_refl) in L'. by injection L' as <-.
        -- apply (Last j var' Hj).
           pose proof (lookup_lt_Some _ _ _ L') as Hlt.
           rewrite length_app in Hlt. simpl in Hlt.
           rewrite lookup_app_l in L' by lia. done.
      * intros (L & E & Last).
        destruct (decide (index = length group)) as [->|Hi].
        -- rewrite (list_lookup_middle group [] x (length group) eq_refl) in L. injection L as <-.
           done.
        -- pose proof (lookup_lt_Some _ _ _ L) as Hlt.
           rewrite length_app in Hlt. simpl in Hlt.
           rewrite lookup_app_l in L by lia. split; [done|]. split; [done|].
           intros j var' Hj L'. apply (Last j var' Hj).
           by apply lookup_app_l_Some.
Qed.

Lemma variables_of_None (group : list Instance) (i : string) :
  variables_of group !! i = None
  ↔ Forall (λ var, id (inst_cls var) ≠ i) group.
Proof.
  induction group as [|x group IH] using rev_ind.
  - unfold variables_of. simpl. by rewrite lookup_empty.
  - rewrite variables_of_snoc, Forall_app, Forall_singleton.
    destruct (decide (id (inst_cls x) = i)) as [E|Hne].
    + rewrite E, lookup_insert_eq. split; [done|]. by intros [_ ?].
    + rewrite lookup_insert_ne by done. rewrite IH. split; [done|].
      by intros [? _].
Qed.

(** X7.  The dict of variables maps an id to the last instance of the
    VARIABLE group with that id, held at its position in the group, and has
    no entry for an id no instance of the group has; without a VARIABLE
    group the property raises [KeyError]. *)
Theorem variables_last_wins (self : Character) :
  match elements self !! VARIABLE with
  | None => Character_variables self = Raise (KeyError (KInt VARIABLE))
  | Some group =>
      ∃ variables, Character_variables self = Ok variables
        ∧ (∀ i index var,
             variables !! i = Some (index, var)
             ↔ group !! index = Some var ∧ id (inst_cls var) = i
               ∧ ∀ j var', (index < j)%nat → group !! j = Some var' →
                           id (inst_cls var') ≠ i)
        ∧ ∀ i, variables !! i = None
               ↔ Forall (λ var, id (inst_cls var) ≠ i) group
  end.
Proof.
  unfold Character_variables.
  destruct (elements self !! VARIABLE) as [group|]; [|done].
  exists (variables_of group). split; [done|]. split.
  - apply variables_of_lookup.
  - apply variables_of_None.
Qed.


(** ** Evaluation *)

Section Evaluation_properties.

Context `{!Objects}.

(** *** The log of probes does not influence an evaluation *)

Lemma bind_shift {A B} (h : list nat) (m : M A) (k : A → M B) (s : State) :
  m (with_hits h s) = shift h (m s) →
  (∀ a s1, k a (with_hits h s1) = shift h (k a s1)) →
  (m ≫= k) (with_hits h s) = shift h ((m ≫= k) s).
Proof.
  intros Hm Hk. rewrite !bind_Some, Hm.
  destruct (m s) as [[[a|e] s1]|]; simpl; [apply Hk|done|done].
Qed.

Lemma tick_shift (h : list nat) (k : nat) (s : State) :
  tick k (with_hits h s) = shift h (tick k s).
Proof. unfold tick, shift, with_hits. simpl. by rewrite app_assoc. Qed.

Lemma Formula_call_shift (h : list nat) (gv : string → M value) (f : Formula) :
  (∀ name s, gv name (with_hits h s) = shift h (gv name s)) →
  ∀ s, Formula_call gv f (with_hits h s) = shift h (Formula_call gv f s).
Proof.
  intros GV.
  induction f as [v|name|element|element|expr IHe t IHt e IHf
                 |self IHs op func IHf|self IHs op func IHf|k f IH];
    intros s; simpl.
  - done.
  - apply GV.
  - rewrite !bind_Some. unfold lift. simpl.
    by destruct (Character_count_elements _ _).
  - rewrite !bind_Some. unfold lift. simpl.
    by destruct (Character_count_elements _ _).
  - apply bind_shift; [done|]. intros b s1. destruct (truthy b); auto.
  - apply bind_shift; [done|]. intros a s1. by apply bind_shift.
  - apply bind_shift; [done|]. intros a s1. by apply bind_shift.
  - apply bind_shift; [apply tick_shift|]. intros _ s1. apply IH.
Qed.

Lemma Character_get_variable_via_shift (h : list nat)
    (call : nat → Instance → M value) :
  (∀ index var s, call index var (with_hits h s) = shift h (call index var s)) →
  ∀ name s, Character_get_variable_via call name (with_hits h s)
            = shift h (Character_get_variable_via call name s).
Proof.
  intros Hcall name s. unfold Character_get_variable_via. simpl.
  destruct (Character_variables (character s)) as [variables|e]; [|done].
  destruct (variables !! name) as [[index var]|]; [apply Hcall|done].
Qed.

Lemma Variable_call_shift (h : list nat) (fuel index : nat) (var : Instance)
    (s : State) :
  Variable_call fuel index var (with_hits h s)
  = shift h (Variable_call fuel index var s).
Proof.
  revert index var s. induction fuel as [|fuel IH]; intros index var s;
    [done|].
  simpl. destruct (formula (inst_cls var)) as [f|]; [|done].
  destruct (_lock var); [done|].
  apply bind_shift; [done|]. intros _ s1.
  apply bind_shift.
  - apply Formula_call_shift, Character_get_variable_via_shift, IH.
  - intros v s2. by apply bind_shift.
Qed.

Lemma Formula_eval_shift (h : list nat) (fuel : nat) (f : Formula) (s : State) :
  Formula_eval fuel f (with_hits h s) = shift h (Formula_eval fuel f s).
Proof.
  apply Formula_call_shift, Character_get_variable_via_shift.
  intros. apply Variable_call_shift.
Qed.

Lemma with_hits_start (s : State) :
  s = with_hits (hits s) (start (character s)).
Proof.
  destruct s as [c hs]. unfold with_hits, start. simpl. by rewrite app_nil_r.
Qed.

(** Two states with the same character give the same value or exception,
    and the same character afterwards. *)
Lemma same_character_same_outcome (fuel : nat) (f : Formula) (s1 s2 : State) :
  character s1 = character s2 →
  (λ rs, (rs.1, character rs.2)) <$> Formula_eval fuel f s1
  = (λ rs, (rs.1, character rs.2)) <$> Formula_eval fuel f s2.
Proof.
  intros E.
  rewrite (with_hits_start s1), (with_hits_start s2), !Formula_eval_shift, E.
  destruct (Formula_eval fuel f (start (character s2))) as [[r s']|]; done.
Qed.

(** X8.  Nothing is cached: when a formula returns a value, evaluating it
    again in the state it left returns the same value, leaves the character
    as it is and records the same probes a second time. *)
Theorem evaluation_is_repeatable (fuel : nat) (f : Formula) (s s' : State)
    (v : value) :
  Formula_eval fuel f s = Some (Ok v, s') →
  ∃ log, s' = {| character := character s; hits := hits s ++ log |}
    ∧ Formula_eval fuel f s'
      = Some (Ok v, {| character := character s;
                       hits := hits s ++ log ++ log |}).
Proof.
  intros E. rewrite (with_hits_start s), Formula_eval_shift in E.
  destruct (Formula_eval fuel f (start (character s))) as [[r s0]|] eqn:E0;
    [|done].
  simpl in E. injection E as -> <-.
  pose proof (Formula_eval_evaluated _ _ _ _ _ E0) as (_ & C & _).
  specialize (C v eq_refl). simpl in C.
  exists (hits s0). unfold with_hits at 1. rewrite C. split; [done|].
  rewrite (with_hits_start (with_hits (hits s) s0)), Formula_eval_shift.
  simpl. rewrite C, E0. simpl. unfold with_hits. simpl.
  by rewrite C, app_assoc.
Qed.


(** X9.  An evaluation changes nothing but flags, and only sets them: the
    registry, the groups of the other types and the classes of the
    instances of every group stay as they are, a flag that was set stays
    set, and when a value is returned the character is exactly the one the
    evaluation started from. *)
Theorem evaluation_only_sets_flags (fuel : nat) (f : Formula) (s s' : State)
    (r : outcome value) :
  Formula_eval fuel f s = Some (r, s') →
  _registry (character s') = _registry (character s)
  ∧ (∀ t, t ≠ VARIABLE →
          elements (character s') !! t = elements (character s) !! t)
  ∧ (∀ t, map inst_cls (Character_get_elements_by_type (character s') t)
          = map inst_cls (Character_get_elements_by_type (character s) t))
  ∧ (∀ index var,
       Character_get_elements_by_type (character s) VARIABLE !! index
         = Some var →
       _lock var = true →
       ∃ var', Character_get_elements_by_type (character s') VARIABLE !! index
                 = Some var' ∧ _lock var' = true)
  ∧ (∀ v, r = Ok v → character s' = character s).
Proof.
  intros E. apply Formula_eval_evaluated in E as ((R & G & V) & C & _).
  split; [done|]. split; [done|]. split; [|split; [|done]].
  - intros t. unfold Character_get_elements_by_type.
    destruct (decide (t = VARIABLE)) as [->|Ht]; [|by rewrite G].
    destruct V as [group group' F|]; simpl; [|done].
    induction F as [|x y l k [E _] F IH]; [done|]. simpl. by rewrite E, IH.
  - intros index var. unfold Character_get_elements_by_type.
    destruct V as [group group' F|]; simpl; [|done]. intros I L.
    rewrite Forall2_lookup in F. specialize (F index). rewrite I in F.
    inversion F as [? var' [_ Hl] E1 E2|]; subst. exists var'. auto.
Qed.

Lemma Formula_eval_mono (fuel fuel' : nat) (f : Formula) (s : State)
    (x : outcome value * State) :
  (fuel ≤ fuel')%nat →
  Formula_eval fuel f s = Some x → Formula_eval fuel' f s = Some x.
Proof.
  intros Hle. apply Formula_call_mono. intros name s1 y.
  by apply Character_get_variable_mono.
Qed.

(** X10.  The flags bound the depth of nested evaluations: with more fuel
    than the VARIABLE group has instances every evaluation ends, with a
    value or with an exception, and more fuel gives the same result. *)
Theorem evaluation_terminates (fuel : nat) (f : Formula) (s : State) :
  (length (Character_get_elements_by_type (character s) VARIABLE) < fuel)%nat →
  ∃ r s', Formula_eval fuel f s = Some (r, s')
    ∧ ∀ fuel', (fuel ≤ fuel')%nat → Formula_eval fuel' f s = Some (r, s').
Proof.
  intros Hf. destruct (Formula_eval_total fuel f s) as [[r s'] E].
  - unfold unlocked.
    pose proof (length_filter (λ x, _lock x = false)
                  (Character_get_elements_by_type (character s) VARIABLE)).
    lia.
  - exists r, s'. split; [done|]. intros fuel' Hle.
    by apply (Formula_eval_mono fuel).
Qed.

(** X11.  On a character built over a registry made by registrations,
    [get_variable] of an id that is not registered under VARIABLE raises
    [KeyError] for that id and leaves the state as it is. *)
Theorem get_variable_unregistered (refs : list ElementRef)
    (registry : Registry) (c : Character) (name : string) (fuel : nat)
    (h : list nat) :
  Character_init refs registry = Ok c →
  Registry_wf registry →
  Registry_getitem registry VARIABLE !! name = None →
  Character_get_variable fuel name {| character := c; hits := h |}
  = Some (Raise (KeyError (KStr name)), {| character := c; hits := h |}).
Proof.
  intros I W N. apply Character_init_Ok in I as (_ & (vs & E & _ & G) & _).
  unfold Character_get_variable, Character_get_variable_via,
    Character_variables. simpl. rewrite G.
  fold (variables_of (map new vs)).
  assert (variables_of (map new vs) !! name = None) as ->; [|done].
  apply variables_of_None, Forall_fmap, Forall_forall. intros d Hin. simpl.
  intros <-.
  assert (Subclass d ∈ (map_to_list (Registry_getitem registry VARIABLE)).*2)
    as Hv by (rewrite E; by apply list_elem_of_fmap_2).
  apply elem_of_values in Hv as [i Hi].
  destruct (W _ _ _ Hi) as (d' & [= <-] & _ & <-). congruence.
Qed.

(** X12.  From a character none of whose flags is set, evaluating a formula
    with the flags gives what evaluating it with an explicit call chain
    gives: the same value or the same exception, after the same probes.  In
    particular [CircularDependencyError] is then raised exactly for an
    instance that is in progress on the active call chain. *)
Theorem flags_agree_with_call_chain (fuel : nat) (f : Formula) (s : State) :
  idle (character s) →
  match Formula_eval fuel f s,
        Formula_call (chain_get_variable fuel []) f s with
  | Some (r, sc), Some (r', ss) => r = r' ∧ hits sc = hits ss
  | None, None => True
  | _, _ => False
  end.
Proof.
  intros Hi.
  assert (sim [] s s) as S.
  { split; [done|]. split; [|by apply chain_locked_idle].
    split; [done|]. split; [done|].
    destruct (elements (character s) !! VARIABLE); constructor.
    by apply Forall_Forall2_diag, Forall_forall. }
  pose proof (Formula_call_agree [] (Character_get_variable fuel)
                (chain_get_variable fuel []) f) as A.
  specialize (A ltac:(apply Character_get_variable_via_agree; intros;
                      by apply Variable_call_agree) s s S).
  unfold Formula_eval.
  destruct (Formula_call (Character_get_variable fuel) f s)
    as [[[v|e] sc]|],
    (Formula_call (chain_get_variable fuel []) f s) as [[[w|e'] ss]|];
    simpl in A; try done.
  - destruct A as (-> & Hh & _). done.
  - destruct A as (-> & Hh). done.
Qed.


(** *** All variables at once *)

Lemma call_ref_is_get_variable (fuel : nat) (k : string) (iv : nat * Instance)
    (s : State) (group : list Instance) :
  elements (character s) !! VARIABLE = Some group →
  variables_of group !! k = Some iv →
  Variable_call_ref fuel iv s = Character_get_variable fuel k s.
Proof.
  intros G L. destruct iv as [index var].
  unfold Variable_call_ref, Character_get_variable,
    Character_get_variable_via, Character_variables,
    Character_get_elements_by_type. rewrite G. simpl.
  fold (variables_of group). rewrite L.
  apply variables_of_lookup in L as (I & _). by rewrite I.
Qed.

Lemma get_variable_transport (fuel : nat) (k : string) (s1 s : State) :
  character s1 = character s →
  (Character_get_variable fuel k s1 = None →
   Character_get_variable fuel k s = None)
  ∧ ∀ r s2, Character_get_variable fuel k s1 = Some (r, s2) →
            ∃ s'', Character_get_variable fuel k s = Some (r, s'').
Proof.
  intros E. pose proof (same_character_same_outcome fuel (Fvar k) s1 s E) as O.
  unfold Formula_eval in O. simpl in O. split.
  - intros N. rewrite N in O.
    by destruct (Character_get_variable fuel k s).
  - intros r s2 S. rewrite S in O.
    destruct (Character_get_variable fuel k s) as [[r' s'']|]; [|done].
    simpl in O. injection O as -> _. by exists s''.
Qed.

Lemma get_variable_probes (fuel : nat) (k : string) (s : State) :
  Character_get_variable fuel k s
  = match Character_get_variable fuel k (start (character s)) with
    | Some (r, s0) =>
        Some (r, {| character := character s0; hits := hits s ++ hits s0 |})
    | None => None
    end.
Proof.
  pose proof (Formula_eval_shift (hits s) fuel (Fvar k) (start (character s)))
    as E.
  rewrite <- with_hits_start in E. unfold Formula_eval in E. simpl in E.
  fold (Character_get_variable fuel k) in E. rewrite E.
  by destruct (Character_get_variable fuel k (start (character s)))
       as [[r s0]|].
Qed.

Lemma returns_transport (fuel : nat) (k : string) (s1 s : State) :
  character s1 = character s → returns fuel s1 k → returns fuel s k.
Proof.
  intros E (v & s' & R).
  destruct (get_variable_transport fuel k s1 s E) as [_ T].
  destruct (T _ _ R) as [s'' R']. by exists v, s''.
Qed.

Lemma calculate_spec (fuel : nat) (group : list Instance)
    (items : list (string * (nat * Instance))) (result : list (string * value))
    (s : State) :
  elements (character s) !! VARIABLE = Some group →
  (∀ k iv, (k, iv) ∈ items → variables_of group !! k = Some iv) →
  match calculate fuel items result s with
  | Some (Ok d, s') =>
      s' = {| character := character s;
              hits := hits s
                      ++ concat (map (probes_of fuel (character s)) items.*1) |}
      ∧ ∃ vals, d = result ++ vals ∧ vals.*1 = items.*1
          ∧ ∀ k v, (k, v) ∈ vals →
                   ∃ s'', Character_get_variable fuel k s = Some (Ok v, s'')
  | Some (Raise e, s') =>
      ∃ before k after, items.*1 = before ++ k :: after
        ∧ Forall (returns fuel s) before
        ∧ (∃ s'', Character_get_variable fuel k s = Some (Raise e, s''))
        ∧ hits s' = hits s
                    ++ concat (map (probes_of fuel (character s)) before)
                    ++ probes_of fuel (character s) k
  | None =>
      ∃ before k after, items.*1 = before ++ k :: after
        ∧ Forall (returns fuel s) before
        ∧ Character_get_variable fuel k s = None
  end.
Proof.
  revert result s. induction items as [|[k iv] items IH]; intros result s G V.
  - simpl. rewrite app_nil_r. split; [by destruct s|]. exists [].
    rewrite app_nil_r. split; [done|]. split; [done|].
    by intros k v ?%elem_of_nil.
  - simpl. rewrite bind_Some.
    rewrite (call_ref_is_get_variable fuel k iv s group G)
      by (apply V; left).
    pose proof (get_variable_probes fuel k s) as P.
    assert (probes_of fuel (character s) k
            = match Character_get_variable fuel k (start (character s)) with
              | Some (_, s0) => hits s0
              | None => []
              end) as Pk by done.
    destruct (Character_get_variable fuel k (start (character s)))
      as [[r s0]|] eqn:E0; rewrite P; [|by exists [], k, items.*1].
    destruct r as [v|e];
      [|exists [], k, items.*1; split; [done|]; split; [constructor|];
        split; [by eexists|]; simpl; by rewrite Pk].
    pose proof (Character_get_variable_evaluated _ _ _ _ _ E0) as (_ & C & _).
    specialize (C v eq_refl). simpl in C. rewrite C.
    set (s1 := {| character := character s; hits := hits s ++ hits s0 |}).
    assert (returns fuel s k) as Rk.
    { exists v, s1. rewrite P. unfold s1. by rewrite C. }
    specialize (IH (result ++ [(k, v)]) s1 G
                  (λ k' iv' Hin, V k' iv' (list_elem_of_further _ _ _ Hin))).
    destruct (calculate fuel items (result ++ [(k, v)]) s1)
      as [[[d|e] s']|]; simpl in IH.
    + destruct IH as (-> & vals & -> & K & Vals). split.
      * f_equal. simpl. rewrite Pk. by rewrite <- app_assoc.
      * exists ((k, v) :: vals). split; [by rewrite <- app_assoc|].
        split; [simpl; by f_equal|].
        intros k' v' [[= -> ->]|Hin]%elem_of_cons.
        -- destruct Rk as (v0 & s'' & R). rewrite P in R.
           injection R as <- _. rewrite P. by eexists.
        -- destruct (Vals k' v' Hin) as [s2 E2].
           destruct (get_variable_transport fuel k' s1 s eq_refl) as [_ T].
           by apply T in E2.
    + destruct IH as (before & k' & after & K & B & (s2 & R) & Hh).
      exists (k :: before), k', after. split; [simpl; by f_equal|].
      split; [constructor; [done|]|split].
      * eapply Forall_impl; [exact B|]. intros k0.
        by apply returns_transport.
      * destruct (get_variable_transport fuel k' s1 s eq_refl) as [_ T].
        by apply T in R.
      * rewrite Hh. simpl. rewrite Pk. by rewrite <- !app_assoc.
    + destruct IH as (before & k' & after & K & B & R).
      exists (k :: before), k', after. split; [simpl; by f_equal|].
      split; [constructor; [done|]|].
      * eapply Forall_impl; [exact B|]. intros k0.
        by apply returns_transport.
      * destruct (get_variable_transport fuel k' s1 s eq_refl) as [T _].
        by apply T.
Qed.

Lemma items_keys (m : gmap string (nat * Instance)) (keys : list string) :
  Forall (λ k, is_Some (m !! k)) keys →
  (omap (λ k, (λ iv, (k, iv)) <$> m !! k) keys).*1 = keys.
Proof.
  induction 1 as [|k keys [iv E] F IH]; [done|].
  simpl. rewrite E. simpl. f_equal. exact IH.
Qed.

Lemma items_lookup (m : gmap string (nat * Instance)) (keys : list string)
    (k : string) (iv : nat * Instance) :
  (k, iv) ∈ omap (λ k, (λ iv, (k, iv)) <$> m !! k) keys → m !! k = Some iv.
Proof.
  intros (k' & _ & E)%list_elem_of_omap.
  destruct (m !! k') as [iv'|] eqn:L; [|done].
  simpl in E. by injection E as <- <-.
Qed.

(** X13.  [calculated_variables] evaluates the variables in the order of the
    keys of the dict of variables, which is the order of the first
    occurrence of each id in the VARIABLE group.  When it returns, the
    character is as it was, the probes of the variables were recorded one
    variable after the other in that order, and the result has one item per
    key, in that order, with the value [get_variable] returns for it.  When
    it raises, the exception is that of the first key, in that order, whose
    evaluation does not return a value: every key before it returns one, no
    key after it is evaluated, and no partial result is returned. *)
Theorem calculated_variables_spec (fuel : nat) (s : State)
    (group : list Instance) :
  elements (character s) !! VARIABLE = Some group →
  let keys := keys_in_order (map (λ var, id (inst_cls var)) group) in
  match Character_calculated_variables fuel s with
  | Some (Ok d, s') =>
      s' = {| character := character s;
              hits := hits s
                      ++ concat (map (probes_of fuel (character s)) keys) |}
      ∧ d.*1 = keys
      ∧ ∀ k v, (k, v) ∈ d →
               ∃ s'', Character_get_variable fuel k s = Some (Ok v, s'')
  | Some (Raise e, s') =>
      ∃ before k after, keys = before ++ k :: after
        ∧ Forall (returns fuel s) before
        ∧ (∃ s'', Character_get_variable fuel k s = Some (Raise e, s''))
        ∧ hits s' = hits s
                    ++ concat (map (probes_of fuel (character s)) before)
                    ++ probes_of fuel (character s) k
  | None =>
      ∃ before k after, keys = before ++ k :: after
        ∧ Forall (returns fuel s) before
        ∧ Character_get_variable fuel k s = None
  end.
Proof.
  intros G keys.
  unfold Character_calculated_variables, Character_variables_items,
    Character_variables, Character_get_elements_by_type. rewrite G. simpl.
  fold (variables_of group).
  set (ids := map (λ var, id (inst_cls var)) group) in *.
  assert (Forall (λ k, is_Some (variables_of group !! k)) keys) as F.
  { apply Forall_forall. intros k Hk.
    assert (k ∈ ids) as Hin.
    { revert Hk. unfold keys, keys_in_order.
      by rewrite elem_of_reverse, elem_of_remove_dups, elem_of_reverse. }
    destruct (variables_of group !! k) eqn:L; [by eexists|].
    apply variables_of_None in L. rewrite Forall_forall in L.
    apply list_elem_of_fmap in Hin as (var & -> & Hin).
    by destruct (L var Hin). }
  pose proof (items_keys _ _ F) as K.
  fold ids. fold keys.
  set (items := omap (λ k, (λ iv, (k, iv)) <$> variables_of group !! k) keys)
    in *.
  pose proof (calculate_spec fuel group items [] s G
                (λ k iv, items_lookup _ _ k iv)) as Spec.
  rewrite K in Spec.
  destruct (calculate fuel items [] s) as [[[d|e] s']|]; [|done|done].
  destruct Spec as (-> & vals & -> & Kv & Vals). done.
Qed.

End Evaluation_properties.


(** ** Choices *)

Lemma py_index_None {A} (l : list A) (i : Z) :
  py_index l i = None
  ↔ i < - Z.of_nat (length l) ∨ Z.of_nat (length l) ≤ i.
Proof.
  unfold py_index. destruct (Z.leb_spec 0 i).
  - rewrite lookup_ge_None. lia.
  - destruct (Z.leb_spec (- Z.of_nat (length l)) i).
    + rewrite lookup_ge_None. lia.
    + split; [lia|done].
Qed.

Lemma get_choices_loop_spec (registry : Registry)
    (choices : list ElementMultiRef) (res : list Class) :
  match get_choices_loop registry choices res with
  | Ok res' =>
      Forall (λ choice, ¬ dangling registry choice) choices
      ∧ ∀ cls, cls ∈ res'
               ↔ cls ∈ res
                 ∨ ∃ choice, choice ∈ choices ∧ selects registry choice cls
  | Raise e =>
      ∃ choice k, choice ∈ choices ∧ dangling registry choice
                  ∧ e = KeyError k
  end.
Proof.
  revert res. induction choices as [|choice choices IH]; intros res; simpl.
  - split; [constructor|]. intros cls. split; [by left|].
    intros [?|(c & ?%elem_of_nil & _)]; done.
  - assert (∀ (added : list Class),
              (∀ cls, cls ∈ added ↔ selects registry choice cls) →
              ¬ dangling registry choice →
              match get_choices_loop registry choices (res ++ added) with
              | Ok res' =>
                  Forall (λ choice, ¬ dangling registry choice)
                    (choice :: choices)
                  ∧ ∀ cls, cls ∈ res'
                           ↔ cls ∈ res
                             ∨ ∃ c, c ∈ choice :: choices
                                    ∧ selects registry c cls
              | Raise e =>
                  ∃ c k, c ∈ choice :: choices ∧ dangling registry c
                         ∧ e = KeyError k
              end) as Step.
    { intros added Ha Hd. specialize (IH (res ++ added)).
      destruct (get_choices_loop registry choices (res ++ added))
        as [res'|e].
      - destruct IH as [F M]. split; [by constructor|]. intros cls.
        rewrite M, elem_of_app, Ha. split.
        + intros [[?|?]|(c & ? & ?)]; [by left| |].
          * right. exists choice. split; [left|done].
          * right. exists c. split; [by right|done].
        + intros [?|(c & [->|?]%elem_of_cons & ?)].
          * by left; left.
          * by left; right.
          * right. by exists c.
      - destruct IH as (c & k & ? & ? & ?). exists c, k.
        split; [by right|done]. }
    destruct choice as [[c|typ i]|typ|typ spec]; simpl in *.
    + apply Step; [|by intros []]. intros cls. rewrite list_elem_of_singleton. done.
    + destruct (Registry_get registry typ i) as [c|e] eqn:G.
      * apply Registry_get_Ok in G. apply Step; [|congruence].
        intros cls. rewrite list_elem_of_singleton, G.
        split; [by intros ->|by intros [= ->]].
      * apply Registry_get_Raise in G as [N [k ->]].
        exists (MultiRef (RefPair typ i)), k. split; [left|done].
    + apply Step; [|by intros []]. intros cls. apply elem_of_values.
    + apply Step; [|by intros []]. intros cls. unfold values.
      rewrite list_elem_of_filter, elem_of_values. tauto.
Qed.

(** X14.  [get_choices] raises [IndexError] exactly when the index of the
    option is out of the range of the list, negative indices counted from
    the end.  Otherwise it raises [KeyError] when a candidate of the option
    is a (type, id) pair no class is registered under; and when there is no
    such candidate it returns the set of the classes its candidates stand
    for: a literal for itself, a pair for the class registered under it, a
    type for every class registered under it, and a type with a predicate
    for those of them the predicate accepts. *)
Theorem get_choices_spec (registry : Registry) (options : list OptionTuple)
    (option : Z) :
  match Element_get_choices registry options option with
  | RaiseIndexError =>
      option < - Z.of_nat (length options) ∨ Z.of_nat (length options) ≤ option
  | Raised e =>
      ∃ choices n choice k,
        py_index options option = Some (choices, n) ∧ choice ∈ choices
        ∧ dangling registry choice ∧ e = KeyError k
  | Found res =>
      ∃ choices n,
        py_index options option = Some (choices, n)
        ∧ Forall (λ choice, ¬ dangling registry choice) choices
        ∧ ∀ cls, cls ∈ res
                 ↔ ∃ choice, choice ∈ choices ∧ selects registry choice cls
  end.
Proof.
  unfold Element_get_choices.
  destruct (py_index options option) as [[choices n]|] eqn:I;
    [|by apply py_index_None].
  pose proof (get_choices_loop_spec registry choices []) as L.
  destruct (get_choices_loop registry choices []) as [res|e].
  - destruct L as [F M]. exists choices, n. split; [done|]. split; [done|].
    intros cls. rewrite M. split; [|by right].
    intros [?%elem_of_nil|?]; done.
  - destruct L as (choice & k & ? & ? & ?). by exists choices, n, choice, k.
Qed.

(** X15.  Choices are resolved against the registry as it is when
    [get_choices] is called: after one more class was registered, an option
    that was resolved before is still resolved, to a set that contains the
    former one, and that contains the new class when the option has its
    type among its candidates. *)
Theorem choices_see_later_registrations (registry registry' : Registry)
    (d : ElementClass) (options : list OptionTuple) (option : Z)
    (res : list Class) :
  Registry_register registry (Subclass d) = Ok registry' →
  Element_get_choices registry options option = Found res →
  ∃ res', Element_get_choices registry' options option = Found res'
    ∧ (∀ cls, cls ∈ res → cls ∈ res')
    ∧ ∀ choices n, py_index options option = Some (choices, n) →
                   MultiType (type d) ∈ choices → Subclass d ∈ res'.
Proof.
  intros R E.
  assert (∀ t i cls, Registry_getitem registry t !! i = Some cls →
                     Registry_getitem registry' t !! i = Some cls) as Mono.
  { intros t i cls L. rewrite (Registry_getitem_register _ _ _ t i R).
    case_decide as D; [|done]. destruct D as [-> ->].
    unfold Registry_register, Registry_getitem in *.
    by rewrite L in R. }
  assert (∀ choice cls, selects registry choice cls →
                        selects registry' choice cls) as Sel.
  { intros [[c|t i]|t|t spec] cls; simpl; [done|apply Mono| |].
    - intros [i ?]. exists i. by apply Mono.
    - intros [[i ?] ?]. split; [|done]. exists i. by apply Mono. }
  pose proof (get_choices_spec registry options option) as S.
  pose proof (get_choices_spec registry' options option) as S'.
  rewrite E in S. destruct S as (choices & n & I & F & M).
  destruct (Element_get_choices registry' options option) as [res'| |e].
  - destruct S' as (choices' & n' & I' & F' & M'). rewrite I in I'.
    assert (choices' = choices ∧ n' = n) as [-> ->] by (split; congruence).
    exists res'. split; [done|]. split.
    + intros cls (choice & ? & ?)%M. apply M'. exists choice. auto.
    + intros choices0 n0 I0 Hin.
      assert (choices0 = choices) as -> by congruence.
      apply M'. exists (MultiType (type d)).
      split; [done|]. simpl. exists (id d).
      rewrite (Registry_getitem_register _ _ _ _ _ R). by rewrite decide_True.
  - apply py_index_None in S'. by rewrite I in S'.
  - destruct S' as (choices' & n' & choice & k & I' & Hin & Hd & _).
    rewrite I in I'.
    assert (choices' = choices ∧ n' = n) as [-> ->] by (split; congruence).
    rewrite Forall_forall in F. specialize (F choice Hin).
    destruct choice as [[c|t i]|t|t spec]; simpl in *; try done.
    destruct (Registry_getitem registry t !! i) as [cls|] eqn:L; [|done].
    apply Mono in L. congruence.
Qed.


(** ** Spell flags *)

Lemma SpellFlags_land (x f : Z) :
  x ∈ SpellFlags → f ∈ SpellFlags →
  Z.land x f = if decide (x = f) then f else 0.
Proof.
  unfold SpellFlags. rewrite !elem_of_cons, !elem_of_nil.
  intros [->|[->|[->|[->|[->|[->|[]]]]]]] [->|[->|[->|[->|[->|[->|[]]]]]]];
    reflexivity.
Qed.

(** X16.  The six spell flags are distinct single bits: in a mask made by
    combining any of them with [|], testing a flag with [&] tells exactly
    whether that flag was combined. *)
Theorem SpellFlags_are_independent (flags : list Z) (f : Z) :
  Forall (λ x, x ∈ SpellFlags) flags → f ∈ SpellFlags →
  has_flag (combine flags) f = true ↔ f ∈ flags.
Proof.
  intros F Hf. unfold has_flag. rewrite negb_true_iff, Z.eqb_neq.
  induction F as [|x flags Hx F IH]; simpl.
  - rewrite Z.land_0_l. split; [done|]. by intros ?%elem_of_nil.
  - rewrite Z.land_lor_distr_l, Z.lor_eq_0_iff, elem_of_cons, <- IH.
    rewrite (SpellFlags_land x f Hx Hf).
    assert (f ≠ 0) as Hnz.
    { revert Hf. unfold SpellFlags. rewrite !elem_of_cons, !elem_of_nil.
      intros [->|[->|[->|[->|[->|[->|[]]]]]]]; discriminate. }
    destruct (decide (x = f)) as [->|Hne].
    + split; [by left|]. intros _ [? _]. done.
    + split.
      * intros N. right. intros E. apply N. done.
      * intros [->|N]; [done|]. intros [_ E]. done.
Qed.

(** ** The statements at the sample content, over Python restricted to
       integers and booleans *)

#[local] Existing Instance ints_only.

Lemma register_all_wf (self self' : Registry) (classes : list Class) :
  Registry_wf self → register_all self classes = Ok self' → Registry_wf self'.
Proof.
  revert self. induction classes as [|cls classes IH]; intros self W; simpl.
  - by intros [= <-].
  - destruct (Registry_register self cls) as [self1|e] eqn:R; [|done].
    apply IH. by apply (Registry_wf_register self self1 cls).
Qed.

Lemma game_registry_wf : Registry_wf game_registry.
Proof.
  apply (register_all_wf ∅ game_registry
           (map Subclass [Wizard; Fighter; ShareA; ShareB; Shared; Level;
                          Ping; Pong; Broken])).
  - apply Registry_wf_empty.
  - vm_compute. reflexivity.
Qed.

(** The character built over [game_registry] from a list that names the
    variable [level] and the party holds exactly one instance of [level] and
    none of an id that is not registered, and an evaluation keeps the seven
    instances. *)
Lemma VARIABLE_group_spec_witness :
  ∃ group, elements hero !! VARIABLE = Some group
    ∧ occurrences "level" group = 1%nat
    ∧ occurrences "nowhere" group = 0%nat
    ∧ ∀ r s', Formula_eval 8 (Formula_var "broken")
                (start hero) = Some (r, s') →
              ∃ group', elements (character s') !! VARIABLE = Some group'
                        ∧ map inst_cls group' = map inst_cls group.
Proof.
  destruct (VARIABLE_group_spec (RefPair VARIABLE "level" :: party_refs)
              game_registry hero)
    as (group & G & _ & _ & O & _ & K); [vm_compute; reflexivity|].
  exists group. split; [exact G|].
  split; [exact (O game_registry_wf "level")|].
  split; [exact (O game_registry_wf "nowhere")|].
  intros r s'. apply (K 8%nat (Formula_var "broken") (start hero) r s').
  reflexivity.
Defined.

(** With three wizards the level is 3 and [var("level") * const(4)]
    evaluates to 12. *)
Lemma operator_spec_witness :
  Formula_eval 8
    (Formula_mul (Formula_var "level") (Callable (Formula_const (VInt 4))))
    (start hero)
  = Some (Ok (VInt 12), start hero).
Proof.
  apply (proj1 (proj2 (proj2 (operator_spec
                                (Character_get_variable 8) mul
                                (Callable (Formula_var "level"))
                                (Callable (Formula_const (VInt 4)))
                                (start hero))))
           8%nat (VInt 3) 3 (start hero));
    vm_compute; reflexivity.
Defined.

(** ** The further properties at the sample content *)

Ltac in_list :=
  repeat first [apply list_elem_of_here | apply list_elem_of_further].

Lemma registered_under_own_key_witness :
  ∃ d, Subclass Wizard = Subclass d ∧ type d = CLASS ∧ id d = "wizard".
Proof.
  apply (registered_under_own_key [Subclass Wizard; Subclass Fighter]
           class_registry); vm_compute; reflexivity.
Defined.

Lemma registered_classes_are_found_witness :
  Registry_get class_registry CLASS "fighter" = Ok (Subclass Fighter).
Proof.
  assert (register_all (∅ : Registry) [Subclass Wizard; Subclass Fighter]
          = Ok class_registry) as R by (vm_compute; reflexivity).
  apply (proj1 (registered_classes_are_found ∅ class_registry _ R) Fighter).
  in_list.
Defined.

Lemma groups_follow_construction_list_witness :
  Character_get_elements_by_type party CLASS
  = [new Wizard; new Wizard; new Fighter; new Wizard].
Proof.
  apply (groups_follow_construction_list party_refs class_registry party
           [Wizard; Wizard; Fighter; Wizard] CLASS).
  - vm_compute. reflexivity.
  - repeat constructor.
  - discriminate.
Defined.

Lemma count_follows_construction_list_witness :
  Character_count_elements party (RefPair CLASS "fighter") = Ok 1.
Proof.
  apply (count_follows_construction_list party_refs class_registry party
           [Wizard; Wizard; Fighter; Wizard] (RefPair CLASS "fighter") Fighter).
  - vm_compute. reflexivity.
  - repeat constructor.
  - reflexivity.
  - discriminate.
Defined.

Lemma evaluation_is_repeatable_witness :
  ∃ log,
    {| character := hero; hits := [1%nat] |}
    = {| character := hero; hits := [] ++ log |}
    ∧ Formula_eval 8 (FProbe 1 (Formula_var "level"))
        {| character := hero; hits := [1%nat] |}
      = Some (Ok (VInt 3), {| character := hero; hits := [] ++ log ++ log |}).
Proof.
  apply (evaluation_is_repeatable 8 (FProbe 1 (Formula_var "level"))
           (start hero) _ (VInt 3)).
  vm_compute. reflexivity.
Defined.

Lemma evaluation_only_sets_flags_witness :
  map inst_cls
    (Character_get_elements_by_type
       (commoner_with false false false true) VARIABLE)
  = map inst_cls (Character_get_elements_by_type commoner VARIABLE).
Proof.
  destruct (evaluation_only_sets_flags 8 (Formula_var "broken")
              (start commoner) (start (commoner_with false false false true))
              (Raise (KeyError (KStr "nowhere"))))
    as (_ & _ & Classes & _); [vm_compute; reflexivity|].
  exact (Classes VARIABLE).
Defined.

Lemma evaluation_terminates_witness :
  ∃ r s', Formula_eval 8 (Formula_var "ping") (start hero) = Some (r, s')
    ∧ ∀ fuel', (8 ≤ fuel')%nat →
               Formula_eval fuel' (Formula_var "ping") (start hero)
               = Some (r, s').
Proof.
  apply (evaluation_terminates 8 (Formula_var "ping") (start hero)).
  vm_compute. lia.
Defined.

Lemma get_variable_unregistered_witness :
  Character_get_variable 8 "nowhere" (start hero)
  = Some (Raise (KeyError (KStr "nowhere")), start hero).
Proof.
  apply (get_variable_unregistered party_refs game_registry hero "nowhere" 8 []).
  - vm_compute. reflexivity.
  - apply game_registry_wf.
  - reflexivity.
Defined.

Lemma flags_agree_with_call_chain_witness :
  match Formula_eval 8 (Formula_var "ping") (start hero),
        Formula_call (chain_get_variable 8 []) (Formula_var "ping")
          (start hero) with
  | Some (r, sc), Some (r', ss) => r = r' ∧ hits sc = hits ss
  | None, None => True
  | _, _ => False
  end.
Proof.
  apply (flags_agree_with_call_chain 8 (Formula_var "ping") (start hero)).
  unfold idle. vm_compute. repeat constructor.
Defined.

(** On [trio] the level returns 1 and [Pong] reads [Ping], which reads
    [Pong]: the comprehension raises the exception of [pong], the first key
    that does not return, after [level] and before [ping]. *)
Lemma calculated_variables_spec_witness :
  ∃ before k after,
    ["level"; "pong"; "ping"] = before ++ k :: after
    ∧ Forall (returns 4 (start trio)) before
    ∧ (∃ s'', Character_get_variable 4 k (start trio)
              = Some (Raise (CircularDependencyError 1 Pong), s''))
    ∧ hits (start (set_lock 2 true (set_lock 1 true trio)))
      = hits (start trio)
        ++ concat (map (probes_of 4 (character (start trio))) before)
        ++ probes_of 4 (character (start trio)) k.
Proof.
  pose proof (calculated_variables_spec 4 (start trio)
                [new Level; new Pong; new Ping] eq_refl) as Spec.
  assert (Character_calculated_variables 4 (start trio)
          = Some (Raise (CircularDependencyError 1 Pong),
                  start (set_lock 2 true (set_lock 1 true trio)))) as E
    by (vm_compute; reflexivity).
  rewrite E in Spec. exact Spec.
Defined.

Lemma choices_see_later_registrations_witness :
  ∃ res',
    Element_get_choices
      (<[CLASS := <["rogue" := Subclass Rogue]>
                    {[ "wizard" := Subclass Wizard;
                       "fighter" := Subclass Fighter ]}]> class_registry)
      sample_options (-1) = Found res'
    ∧ (∀ cls, cls ∈ values {[ "wizard" := Subclass Wizard;
                               "fighter" := Subclass Fighter ]}
                      ++ [Subclass Wizard] →
              cls ∈ res')
    ∧ ∀ choices n, py_index sample_options (-1) = Some (choices, n) →
                   MultiType (type Rogue) ∈ choices → Subclass Rogue ∈ res'.
Proof.
  apply (choices_see_later_registrations class_registry _ Rogue
           sample_options (-1)); vm_compute; reflexivity.
Defined.

Lemma SpellFlags_are_independent_witness :
  has_flag (combine [VERBAL; RITUAL]) RITUAL = true ↔ RITUAL ∈ [VERBAL; RITUAL].
Proof.
  apply (SpellFlags_are_independent [VERBAL; RITUAL] RITUAL).
  - repeat constructor; unfold SpellFlags; in_list.
  - unfold SpellFlags. in_list.
Defined.

Lemma Character_init_first_failure_witness :
  Character_init
    [RefPair CLASS "wizard"; RefPair CLASS "rogue"; RefClass Element]
    class_registry
  = Raise (KeyError (KStr "rogue")).
Proof.
  apply (proj1 (Character_init_first_failure class_registry
                  [RefPair CLASS "wizard"] [RefClass Element]
                  (RefPair CLASS "rogue")
                  ltac:(repeat constructor; by exists Wizard))).
  reflexivity.
Defined.
